(** * Smith chart engine: the [SmithConstantCircle] class of src/src/index.ts

    Shallow embedding of the RF transform and circle engine.  JavaScript
    numbers are modelled as real numbers without rounding; where a code path
    can reach a division by zero or a logarithm of zero, the value is a
    [num], which also has the IEEE special values [PInf], [NInf] and [NaN]
    (zero is unsigned in this model). *)

From Stdlib Require Import Reals Lra Psatz List.
Import ListNotations.
Open Scope R_scope.

(** ** JavaScript numbers *)

Inductive num : Type :=
| Fin (r : R)
| PInf
| NInf
| NaN.

Definition js_neg (x : num) : num :=
  match x with
  | Fin a => Fin (- a)
  | PInf => NInf
  | NInf => PInf
  | NaN => NaN
  end.

Definition js_add (x y : num) : num :=
  match x, y with
  | NaN, _ | _, NaN => NaN
  | Fin a, Fin b => Fin (a + b)
  | PInf, NInf | NInf, PInf => NaN
  | PInf, _ | _, PInf => PInf
  | NInf, _ | _, NInf => NInf
  end.

Definition js_sub (x y : num) : num := js_add x (js_neg y).

(** Sign of a finite number, as the infinity it scales. *)
Definition inf_of_sign (a : R) (pos neg : num) : num :=
  if Rlt_dec 0 a then pos else if Rlt_dec a 0 then neg else NaN.

Definition js_mul (x y : num) : num :=
  match x, y with
  | NaN, _ | _, NaN => NaN
  | Fin a, Fin b => Fin (a * b)
  | PInf, Fin b | Fin b, PInf => inf_of_sign b PInf NInf
  | NInf, Fin b | Fin b, NInf => inf_of_sign b NInf PInf
  | PInf, PInf | NInf, NInf => PInf
  | PInf, NInf | NInf, PInf => NInf
  end.

(** Division; a zero divisor is taken as [+0]. *)
Definition js_div (x y : num) : num :=
  match x, y with
  | NaN, _ | _, NaN => NaN
  | Fin a, Fin b =>
      if Req_EM_T b 0 then inf_of_sign a PInf NInf else Fin (a / b)
  | Fin _, (PInf | NInf) => Fin 0
  | (PInf | NInf), (PInf | NInf) => NaN
  | PInf, Fin b => if Rlt_dec b 0 then NInf else PInf
  | NInf, Fin b => if Rlt_dec b 0 then PInf else NInf
  end.

(** [Math.abs] *)
Definition js_abs (x : num) : num :=
  match x with
  | Fin a => Fin (Rabs a)
  | PInf | NInf => PInf
  | NaN => NaN
  end.

(** [Math.sqrt] *)
Definition js_sqrt (x : num) : num :=
  match x with
  | Fin a => if Rlt_dec a 0 then NaN else Fin (sqrt a)
  | PInf => PInf
  | NInf | NaN => NaN
  end.

Definition log10 (a : R) : R := ln a / ln 10.

(** [Math.log10] *)
Definition js_log10 (x : num) : num :=
  match x with
  | Fin a =>
      if Rlt_dec 0 a then Fin (log10 a)
      else if Req_EM_T a 0 then NInf else NaN
  | PInf => PInf
  | NInf | NaN => NaN
  end.

(** [10 ** x] *)
Definition js_pow10 (x : num) : num :=
  match x with
  | Fin a => Fin (Rpower 10 a)
  | PInf => PInf
  | NInf => Fin 0
  | NaN => NaN
  end.

(** [x ** 2] *)
Definition js_pow2 (x : num) : num := js_mul x x.

(** [Math.atan] *)
Definition js_atan (x : num) : num :=
  match x with
  | Fin a => Fin (atan a)
  | PInf => Fin (PI / 2)
  | NInf => Fin (- (PI / 2))
  | NaN => NaN
  end.

(** ** Data model *)

(** src/complex/Complex (not under src/): a pair of finite reals. *)
Record Complex : Type := Complex_from { real : R; imag : R }.

(** [Point = [number, number]] *)
Definition Point : Type := (R * R)%type.

(** [Circle = { p: Point, r: number }] *)
Record Circle : Type := mkCircle { p : Point; r : R }.

(** Modelled from the spec: [Complex.abs] (src/complex/Complex is not
    under src/), the magnitude [sqrt(real^2 + imag^2)] of spec section 3. *)
Definition Complex_abs (c : Complex) : R :=
  sqrt (real c * real c + imag c * imag c).

(** Negation of a complex value. *)
Definition Complex_neg (c : Complex) : Complex :=
  Complex_from (- real c) (- imag c).

(** Modelled from the spec: [Complex.add] of two complex values, component
    by component (spec section 4.1). *)
Definition Complex_add (a b : Complex) : Complex :=
  Complex_from (real a + real b) (imag a + imag b).

(** Modelled from the spec: [Complex.mul] and [Complex.div] by a bare real
    scale both components (spec section 4.1); the division is the real one,
    used with a nonzero divisor. *)
Definition Complex_mul_real (c : Complex) (a : R) : Complex :=
  Complex_from (real c * a) (imag c * a).

Definition Complex_div_real (c : Complex) (a : R) : Complex :=
  Complex_from (real c / a) (imag c / a).

Module SmithConstantCircle.

(** [private epsilon = 1e-10] *)
Definition epsilon : R := 1e-10.

(** ** Bilinear transforms (index.ts lines 27-73) *)

Definition rflCoeffToImpedance_d (c : Complex) : R :=
  (1 - real c) * (1 - real c) + imag c * imag c.

Definition rflCoeffToImpedance (c : Complex) : option Complex :=
  let gr := real c in
  let gi := imag c in
  let d := (1 - gr) * (1 - gr) + gi * gi in
  if Rlt_dec (Rabs d) epsilon then None
  else
    let zr := (1 - gr * gr - gi * gi) / d in
    let zi := (2 * gi) / d in
    Some (Complex_from zr zi).

Definition impedanceToRflCoeff_d (c : Complex) : R :=
  (real c + 1) * (real c + 1) + imag c * imag c.

Definition impedanceToRflCoeff (c : Complex) : option Complex :=
  let zr := real c in
  let zi := imag c in
  let d := (zr + 1) * (zr + 1) + zi * zi in
  if Rlt_dec (Rabs d) epsilon then None
  else
    let gr := (zr * zr + zi * zi - 1) / d in
    let gi := (2 * zi) / d in
    Some (Complex_from gr gi).

Definition rflCoeffToAdmittance_d (c : Complex) : R :=
  (real c + 1) * (real c + 1) + imag c * imag c.

Definition rflCoeffToAdmittance (c : Complex) : option Complex :=
  let gr := real c in
  let gi := imag c in
  let d := (gr + 1) * (gr + 1) + gi * gi in
  if Rlt_dec (Rabs d) epsilon then None
  else
    let yr := (1 - gr * gr - gi * gi) / d in
    let yi := (-2 * gi) / d in
    Some (Complex_from yr yi).

Definition admittanceToRflCoeff_d (c : Complex) : R :=
  (real c + 1) * (real c + 1) + imag c * imag c.

Definition admittanceToRflCoeff (c : Complex) : option Complex :=
  let yr := real c in
  let yi := imag c in
  let d := (yr + 1) * (yr + 1) + yi * yi in
  if Rlt_dec (Rabs d) epsilon then None
  else
    let gr := (1 - yr * yr - yi * yi) / d in
    let gi := (-2 * yi) / d in
    Some (Complex_from gr gi).

(** ** Circle generators (index.ts lines 75-94).  The divisions are the
    real ones; the generators are only considered off their poles
    ([n <> -1], [n <> 0]). *)

Definition resistanceCircle (n : R) : Circle :=
  mkCircle (n / (n + 1), 0) (1 / (n + 1)).

Definition reactanceCircle (n : R) : Circle :=
  mkCircle (1, 1 / n) (Rabs (1 / n)).

Definition conductanceCircle (n : R) : Circle :=
  mkCircle (- n / (n + 1), 0) (1 / (n + 1)).

Definition susceptanceCircle (n : R) : Circle :=
  mkCircle (-1, -1 / n) (Rabs (1 / n)).

(** Center is (0, +1/Q) or (0, -1/Q). *)
Definition constQCircle (q : R) : Circle :=
  mkCircle (0, 1 / q) (sqrt (1 + 1 / (q * q))).

(** ** Scalar metrics (index.ts lines 96-156) *)

Definition rflCoeffToSwr (rc : Complex) : num :=
  let gamma := Fin (Complex_abs rc) in
  js_div (js_add (Fin 1) gamma) (js_sub (Fin 1) gamma).

Definition swrToRflCoeffEOrI (swr : num) : num :=
  js_div (js_sub swr (Fin 1)) (js_add swr (Fin 1)).

Definition swrTodBS (swr : num) : num :=
  js_mul (Fin 20) (js_log10 swr).

Definition dBSToSwr (dBS : num) : num :=
  js_pow10 (js_div dBS (Fin 20)).

Definition rflCoeffToDBS (rc : Complex) : num :=
  swrTodBS (rflCoeffToSwr rc).

Definition rflCoeffP (rc : Complex) : num :=
  js_pow2 (Fin (Complex_abs rc)).

Definition rflCoeffEOrI (rc : Complex) : num :=
  js_sqrt (rflCoeffP rc).

Definition rflCoeffToReturnLoss (rc : Complex) : num :=
  js_mul (Fin (-20)) (js_log10 (rflCoeffEOrI rc)).

Definition returnLossToRflCoeffEOrI (rl : num) : num :=
  js_pow10 (js_div (js_neg rl) (Fin 20)).

(** mismatch loss is reflection loss *)
Definition rflCoeffToMismatchLoss (rc : Complex) : num :=
  let abs := rflCoeffEOrI rc in
  js_mul (Fin (-10)) (js_log10 (js_sub (Fin 1) (js_pow2 abs))).

Definition rflCoeffToQ (rc : Complex) : option num :=
  match rflCoeffToImpedance rc with
  | None => None
  | Some impedance =>
      Some (js_abs (js_div (Fin (imag impedance)) (Fin (real impedance))))
  end.

(** ** Circle-circle intersection and membership (index.ts lines 206-226) *)

(** [Math.pow(x, 2)] *)
Definition pow2 (x : R) : R := x * x.

Definition circleCircleIntersection (c1 c2 : Circle) : list Point :=
  let '(x1, y1) := p c1 in
  let '(x2, y2) := p c2 in
  let dl := sqrt (pow2 (x2 - x1) + pow2 (y2 - y1)) in
  let cosA := (dl * dl + r c1 * r c1 - r c2 * r c2) / (2 * dl * r c1) in
  let sinA := sqrt (1 - pow2 cosA) in
  let vpx := (x2 - x1) * r c1 / dl in
  let vpy := (y2 - y1) * r c1 / dl in
  [ (vpx * cosA - vpy * sinA + x1, vpx * sinA + vpy * cosA + y1);
    (vpx * cosA + vpy * sinA + x1, vpy * cosA - vpx * sinA + y1) ].

Definition isPointWithinCircle (pt : Point) (c : Circle) : bool :=
  if Rle_dec (pow2 (fst pt - fst (p c)) + pow2 (snd pt - snd (p c)))
             (pow2 (r c))
  then true else false.

(** ** Frequency and wavelength (index.ts lines 236-242) *)

Definition waveLengthFromFrequency (frequency : num) : num :=
  js_div (Fin 299792458) frequency.

Definition frequencyFromWaveLength (waveLength : num) : num :=
  js_mul (Fin 299792458) waveLength.

(** Modelled from the spec: the Point-based methods
    [reflectionCoefficientToImpedance] and
    [reflectionCoefficientToAdmittance] that src/Smith.ts calls on its
    [SmithConstantCircle] (their definitions are not under src/); spec
    section 4.2 gives them the formulas of [rflCoeffToImpedance] and
    [rflCoeffToAdmittance] above, on a point [(gr, gi)]. *)
Definition reflectionCoefficientToImpedance (rc : Point) : option Point :=
  option_map (fun z => (real z, imag z))
    (rflCoeffToImpedance (Complex_from (fst rc) (snd rc))).

Definition reflectionCoefficientToAdmittance (rc : Point) : option Point :=
  option_map (fun y => (real y, imag y))
    (rflCoeffToAdmittance (Complex_from (fst rc) (snd rc))).

(** ** Inverse scalar helpers (index.ts lines 117-200) *)

Definition dBSToAbsRflCoeff (dBS : num) : num :=
  let swr := dBSToSwr dBS in
  swrToRflCoeffEOrI swr.

Definition mismatchLossToRflCoeffEOrI (ml : num) : num :=
  js_sqrt (js_sub (Fin 1) (js_pow10 (js_div (js_neg ml) (Fin 10)))).

Definition rflCoeffPToEOrI (p : num) : num := js_sqrt p.

Definition rflCoeffToTransmCoeffP (rc : Complex) : num :=
  js_sub (Fin 1) (js_pow2 (rflCoeffEOrI rc)).

Definition transmCoeffPToRflCoeffEOrI (tcp : num) : num :=
  js_sqrt (js_sub (Fin 1) tcp).

(** s. w. peak (const. p): [sqrt(VSWR)] *)
Definition rflCoeffToSwPeakConstP (rc : Complex) : num :=
  js_sqrt (rflCoeffToSwr rc).

Definition swPeakConstPToRflCoeffEOrI (swPeak : num) : num :=
  swrToRflCoeffEOrI (js_pow2 swPeak).

(** SW. LOSS COEF. = (1+|S|^2) / (1-|S|^2) *)
Definition rflCoeffToSwLossCoeff (rc : Complex) : num :=
  let abs := rflCoeffEOrI rc in
  js_div (js_add (Fin 1) (js_pow2 abs)) (js_sub (Fin 1) (js_pow2 abs)).

Definition swLossCoeffToRflCoeffEOrI (swl : num) : num :=
  js_sqrt (js_div (js_sub swl (Fin 1)) (js_add swl (Fin 1))).

(** ** Normalization, components and series elements
    (index.ts lines 228-286); [Z0] is the field of the class. *)

Definition normalize (Z0 : R) (c : Complex) : Complex := Complex_div_real c Z0.

Definition denormalize (Z0 : R) (c : Complex) : Complex := Complex_mul_real c Z0.

Definition reactanceToCapacitance (x f : R) : option num :=
  if Rle_dec 0 x then None
  else Some (js_div (Fin (-1)) (Fin (2 * PI * f * x))).

(** Only considered for [f <> 0] and [C <> 0]. *)
Definition capacitanceToReactance (C f : R) : Complex :=
  Complex_from 0 (-1 / (2 * PI * f * C)).

Definition reactanceToInductance (x f : R) : option num :=
  if Rle_dec x 0 then None
  else Some (js_div (Fin x) (Fin (2 * PI * f))).

Definition inductanceToReactance (L f : R) : Complex :=
  Complex_from 0 (2 * PI * f * L).


Definition addAdmittance (Z0 : R) (rc adm : Complex) : option Complex :=
  match rflCoeffToAdmittance rc with
  | None => None
  | Some Y => admittanceToRflCoeff (Complex_add Y (Complex_mul_real adm Z0))
  end.

(** ** Angles (index.ts lines 288-299) *)

Definition rad2deg (rad : num) : num :=
  js_div (js_mul rad (Fin 180)) (Fin PI).

Definition deg2rad (deg : num) : num :=
  js_div (js_mul deg (Fin PI)) (Fin 180).

(** tangent to a circle, angle = atan(a) *)
Definition tangentToCircleAngle (c : Circle) (pt : Point) : num :=
  rad2deg (js_atan (js_div (Fin (fst (p c) - fst pt)) (Fin (snd pt - snd (p c))))).

End SmithConstantCircle.

Import SmithConstantCircle.

(** ** The [Smith] readouts (src/src/Smith.ts lines 373-388), for the
    reference impedance [Z0] of the chart.  The arrays the calls return
    are fresh, so the in-place scaling is a map on the result. *)
Module Smith.

Definition calcImpedance (Z0 : R) (rc : Point) : option Point :=
  match reflectionCoefficientToImpedance rc with
  | None => None
  | Some impedance => Some (fst impedance * Z0, snd impedance * Z0)
  end.

(** Admittance in mS. *)
Definition calcAdmittance (Z0 : R) (rc : Point) : option Point :=
  match reflectionCoefficientToAdmittance rc with
  | None => None
  | Some admittance =>
      Some (fst admittance * (1 / Z0 * 1000), snd admittance * (1 / Z0 * 1000))
  end.

End Smith.

(** [pt] lies on the circle [c]. *)
Definition on_circle (pt : Point) (c : Circle) : Prop :=
  pow2 (fst pt - fst (p c)) + pow2 (snd pt - snd (p c)) = pow2 (r c).

(** * Properties *)

Lemma epsilon_pos : 0 < epsilon.
Proof. unfold epsilon. lra. Qed.

(** The guard of a transform, read off its denominator. *)
Ltac guard_cases :=
  match goal with
  | |- context [Rlt_dec ?x ?e] => destruct (Rlt_dec x e)
  end.

Lemma Complex_eta (c : Complex) : Complex_from (real c) (imag c) = c.
Proof. destruct c; reflexivity. Qed.

(** ** The singularity guard *)

Lemma rflCoeffToImpedance_none (c : Complex) :
  rflCoeffToImpedance c = None <-> Rabs (rflCoeffToImpedance_d c) < epsilon.
Proof.
  unfold rflCoeffToImpedance, rflCoeffToImpedance_d; cbv zeta.
  guard_cases; split; intro H; congruence || contradiction.
Qed.

Lemma impedanceToRflCoeff_none (c : Complex) :
  impedanceToRflCoeff c = None <-> Rabs (impedanceToRflCoeff_d c) < epsilon.
Proof.
  unfold impedanceToRflCoeff, impedanceToRflCoeff_d; cbv zeta.
  guard_cases; split; intro H; congruence || contradiction.
Qed.

Lemma rflCoeffToAdmittance_none (c : Complex) :
  rflCoeffToAdmittance c = None <-> Rabs (rflCoeffToAdmittance_d c) < epsilon.
Proof.
  unfold rflCoeffToAdmittance, rflCoeffToAdmittance_d; cbv zeta.
  guard_cases; split; intro H; congruence || contradiction.
Qed.

Lemma admittanceToRflCoeff_none (c : Complex) :
  admittanceToRflCoeff c = None <-> Rabs (admittanceToRflCoeff_d c) < epsilon.
Proof.
  unfold admittanceToRflCoeff, admittanceToRflCoeff_d; cbv zeta.
  guard_cases; split; intro H; congruence || contradiction.
Qed.

(** When a transform returns a value, its denominator is at least
    [epsilon], so the value is a pair of finite reals. *)
Lemma rflCoeffToImpedance_some (c z : Complex) :
  rflCoeffToImpedance c = Some z ->
  epsilon <= Rabs (rflCoeffToImpedance_d c) /\
  z = Complex_from
        ((1 - real c * real c - imag c * imag c) / rflCoeffToImpedance_d c)
        ((2 * imag c) / rflCoeffToImpedance_d c).
Proof.
  unfold rflCoeffToImpedance, rflCoeffToImpedance_d; cbv zeta.
  guard_cases; intro H; [discriminate | injection H as <-; split; [lra | reflexivity]].
Qed.

Lemma impedanceToRflCoeff_some (c z : Complex) :
  impedanceToRflCoeff c = Some z ->
  epsilon <= Rabs (impedanceToRflCoeff_d c) /\
  z = Complex_from
        ((real c * real c + imag c * imag c - 1) / impedanceToRflCoeff_d c)
        ((2 * imag c) / impedanceToRflCoeff_d c).
Proof.
  unfold impedanceToRflCoeff, impedanceToRflCoeff_d; cbv zeta.
  guard_cases; intro H; [discriminate | injection H as <-; split; [lra | reflexivity]].
Qed.

Lemma rflCoeffToAdmittance_some (c y : Complex) :
  rflCoeffToAdmittance c = Some y ->
  epsilon <= Rabs (rflCoeffToAdmittance_d c) /\
  y = Complex_from
        ((1 - real c * real c - imag c * imag c) / rflCoeffToAdmittance_d c)
        ((-2 * imag c) / rflCoeffToAdmittance_d c).
Proof.
  unfold rflCoeffToAdmittance, rflCoeffToAdmittance_d; cbv zeta.
  guard_cases; intro H; [discriminate | injection H as <-; split; [lra | reflexivity]].
Qed.

Lemma admittanceToRflCoeff_some (c g : Complex) :
  admittanceToRflCoeff c = Some g ->
  epsilon <= Rabs (admittanceToRflCoeff_d c) /\
  g = Complex_from
        ((1 - real c * real c - imag c * imag c) / admittanceToRflCoeff_d c)
        ((-2 * imag c) / admittanceToRflCoeff_d c).
Proof.
  unfold admittanceToRflCoeff, admittanceToRflCoeff_d; cbv zeta.
  guard_cases; intro H; [discriminate | injection H as <-; split; [lra | reflexivity]].
Qed.

(** [C2]: [rflCoeffToImpedance (1,0)] and [rflCoeffToAdmittance (-1,0)]
    return no value; each of the four bilinear transforms returns no value
    exactly when the magnitude of its denominator is below
    [epsilon = 1e-10], and otherwise returns a complex value of finite
    reals, the quotients by a denominator of magnitude at least
    [epsilon]. *)
Theorem singular_transform_no_value :
  rflCoeffToImpedance (Complex_from 1 0) = None /\
  rflCoeffToAdmittance (Complex_from (-1) 0) = None /\
  (forall c, rflCoeffToImpedance c = None <->
             Rabs (rflCoeffToImpedance_d c) < epsilon) /\
  (forall c, impedanceToRflCoeff c = None <->
             Rabs (impedanceToRflCoeff_d c) < epsilon) /\
  (forall c, rflCoeffToAdmittance c = None <->
             Rabs (rflCoeffToAdmittance_d c) < epsilon) /\
  (forall c, admittanceToRflCoeff c = None <->
             Rabs (admittanceToRflCoeff_d c) < epsilon) /\
  (forall c z, rflCoeffToImpedance c = Some z ->
     epsilon <= Rabs (rflCoeffToImpedance_d c) /\
     z = Complex_from
           ((1 - real c * real c - imag c * imag c) / rflCoeffToImpedance_d c)
           ((2 * imag c) / rflCoeffToImpedance_d c)) /\
  (forall c z, impedanceToRflCoeff c = Some z ->
     epsilon <= Rabs (impedanceToRflCoeff_d c) /\
     z = Complex_from
           ((real c * real c + imag c * imag c - 1) / impedanceToRflCoeff_d c)
           ((2 * imag c) / impedanceToRflCoeff_d c)) /\
  (forall c y, rflCoeffToAdmittance c = Some y ->
     epsilon <= Rabs (rflCoeffToAdmittance_d c) /\
     y = Complex_from
           ((1 - real c * real c - imag c * imag c) / rflCoeffToAdmittance_d c)
           ((-2 * imag c) / rflCoeffToAdmittance_d c)) /\
  (forall c g, admittanceToRflCoeff c = Some g ->
     epsilon <= Rabs (admittanceToRflCoeff_d c) /\
     g = Complex_from
           ((1 - real c * real c - imag c * imag c) / admittanceToRflCoeff_d c)
           ((-2 * imag c) / admittanceToRflCoeff_d c)).
Proof.
  pose proof epsilon_pos.
  refine (conj _ (conj _ (conj rflCoeffToImpedance_none
    (conj impedanceToRflCoeff_none (conj rflCoeffToAdmittance_none
    (conj admittanceToRflCoeff_none (conj rflCoeffToImpedance_some
    (conj impedanceToRflCoeff_some (conj rflCoeffToAdmittance_some
      admittanceToRflCoeff_some))))))))).
  - apply rflCoeffToImpedance_none; unfold rflCoeffToImpedance_d; simpl.
    replace ((1 - 1) * (1 - 1) + 0 * 0) with 0 by ring.
    rewrite Rabs_R0; exact H.
  - apply rflCoeffToAdmittance_none; unfold rflCoeffToAdmittance_d; simpl.
    replace ((-1 + 1) * (-1 + 1) + 0 * 0) with 0 by ring.
    rewrite Rabs_R0; exact H.
Qed.

(** [C10]: the admittance transform is the impedance transform precomposed
    with negation: both are undefined on the same inputs and agree
    component-wise elsewhere. *)
Theorem rflCoeffToAdmittance_is_impedance_of_neg (c : Complex) :
  rflCoeffToAdmittance c = rflCoeffToImpedance (Complex_neg c).
Proof.
  destruct c as [gr gi].
  unfold rflCoeffToAdmittance, rflCoeffToImpedance, Complex_neg; cbv zeta; simpl.
  replace ((1 - - gr) * (1 - - gr) + - gi * - gi)
    with ((gr + 1) * (gr + 1) + gi * gi) by ring.
  guard_cases; [reflexivity |].
  do 2 f_equal.
  - replace (1 - - gr * - gr - - gi * - gi) with (1 - gr * gr - gi * gi) by ring.
    reflexivity.
  - unfold Rdiv; ring.
Qed.

(** ** Round trips of the bilinear transforms *)

Lemma Complex_abs_facts (g : Complex) :
  0 <= Complex_abs g /\
  Complex_abs g * Complex_abs g = real g * real g + imag g * imag g.
Proof.
  unfold Complex_abs.
  split; [apply sqrt_pos |].
  apply sqrt_sqrt; nra.
Qed.

Lemma Complex_abs_real_bound (g : Complex) :
  real g <= Complex_abs g /\ - real g <= Complex_abs g.
Proof.
  destruct (Complex_abs_facts g) as [H0 H1].
  split; nra.
Qed.

(** Inside the disk [|g| < 1 - 1e-5], both denominators
    [(1 -+ gr)^2 + gi^2] lie in [(1e-10, 4)]. *)
Lemma denominators_bounded (g : Complex) :
  Complex_abs g < 1 - 1e-5 ->
  epsilon < rflCoeffToImpedance_d g < 4 /\
  epsilon < rflCoeffToAdmittance_d g < 4.
Proof.
  intro H.
  destruct (Complex_abs_facts g) as [H0 H1].
  destruct (Complex_abs_real_bound g) as [H2 H3].
  unfold rflCoeffToImpedance_d, rflCoeffToAdmittance_d, epsilon.
  set (a := Complex_abs g) in *.
  assert (Hsq : 1e-10 < (1 - a) * (1 - a)) by nra.
  repeat split; nra.
Qed.

Lemma impedance_round_trip (g : Complex) :
  Complex_abs g < 1 - 1e-5 ->
  exists z, rflCoeffToImpedance g = Some z /\ impedanceToRflCoeff z = Some g.
Proof.
  intro H.
  destruct (denominators_bounded g H) as [[Hd1 Hd2] _].
  pose proof epsilon_pos as He.
  destruct g as [gr gi].
  unfold rflCoeffToImpedance_d in Hd1, Hd2; simpl in Hd1, Hd2.
  unfold rflCoeffToImpedance; cbv zeta; simpl.
  set (d := (1 - gr) * (1 - gr) + gi * gi) in *.
  assert (Hd : d <> 0) by lra.
  destruct (Rlt_dec (Rabs d) epsilon) as [Hlt | _].
  { rewrite Rabs_pos_eq in Hlt; lra. }
  eexists; split; [reflexivity |].
  unfold impedanceToRflCoeff; cbv zeta; simpl.
  assert (Hd' : ((1 - gr * gr - gi * gi) / d + 1) *
                ((1 - gr * gr - gi * gi) / d + 1) +
                2 * gi / d * (2 * gi / d) = 4 / d).
  { unfold d in *; field; exact Hd. }
  rewrite Hd'.
  assert (H4 : 1 < 4 / d).
  { apply (Rmult_lt_reg_r d); [lra |].
    unfold Rdiv; rewrite Rmult_assoc, Rinv_l by exact Hd; lra. }
  destruct (Rlt_dec (Rabs (4 / d)) epsilon) as [Hlt | _].
  { rewrite Rabs_pos_eq in Hlt by lra; unfold epsilon in *; lra. }
  do 2 f_equal; unfold d in *; field; exact Hd.
Qed.

Lemma admittance_round_trip (g : Complex) :
  Complex_abs g < 1 - 1e-5 ->
  exists y, rflCoeffToAdmittance g = Some y /\ admittanceToRflCoeff y = Some g.
Proof.
  intro H.
  destruct (denominators_bounded g H) as [_ [Hd1 Hd2]].
  pose proof epsilon_pos as He.
  destruct g as [gr gi].
  unfold rflCoeffToAdmittance_d in Hd1, Hd2; simpl in Hd1, Hd2.
  unfold rflCoeffToAdmittance; cbv zeta; simpl.
  set (d := (gr + 1) * (gr + 1) + gi * gi) in *.
  assert (Hd : d <> 0) by lra.
  destruct (Rlt_dec (Rabs d) epsilon) as [Hlt | _].
  { rewrite Rabs_pos_eq in Hlt; lra. }
  eexists; split; [reflexivity |].
  unfold admittanceToRflCoeff; cbv zeta; simpl.
  assert (Hd' : ((1 - gr * gr - gi * gi) / d + 1) *
                ((1 - gr * gr - gi * gi) / d + 1) +
                -2 * gi / d * (-2 * gi / d) = 4 / d).
  { unfold d in *; field; exact Hd. }
  rewrite Hd'.
  assert (H4 : 1 < 4 / d).
  { apply (Rmult_lt_reg_r d); [lra |].
    unfold Rdiv; rewrite Rmult_assoc, Rinv_l by exact Hd; lra. }
  destruct (Rlt_dec (Rabs (4 / d)) epsilon) as [Hlt | _].
  { rewrite Rabs_pos_eq in Hlt by lra; unfold epsilon in *; lra. }
  do 2 f_equal; unfold d in *; field; exact Hd.
Qed.

(** [C1], counterexample: [gamma = (1 - 2e-6, 0)] has [|gamma| < 1 - 1e-6],
    yet [rflCoeffToImpedance] returns no value there, since its denominator
    [(1 - gr)^2 + gi^2 = 4e-12] is below [epsilon = 1e-10]. *)
Lemma rflCoeffToImpedance_guard_inside_disk :
  Complex_abs (Complex_from (1 - 2e-6) 0) < 1 - 1e-6 /\
  rflCoeffToImpedance (Complex_from (1 - 2e-6) 0) = None.
Proof.
  split.
  - unfold Complex_abs; simpl.
    replace ((1 - 2e-6) * (1 - 2e-6) + 0 * 0) with (Rsqr (1 - 2e-6))
      by (unfold Rsqr; ring).
    rewrite sqrt_Rsqr by lra; lra.
  - apply rflCoeffToImpedance_none; unfold rflCoeffToImpedance_d, epsilon; simpl.
    rewrite Rabs_pos_eq by nra; lra.
Qed.

(** [C1], amended: for every reflection coefficient with
    [|gamma| < 1 - 1e-5], [rflCoeffToImpedance] returns a value on which
    [impedanceToRflCoeff] returns exactly [gamma], and likewise
    [rflCoeffToAdmittance] followed by [admittanceToRflCoeff]; in real
    arithmetic the round trip has no error, so it is within [1e-9] per
    component. *)
Theorem rflCoeff_round_trip (g : Complex) (H : Complex_abs g < 1 - 1e-5) :
  (exists z, rflCoeffToImpedance g = Some z /\ impedanceToRflCoeff z = Some g) /\
  (exists y, rflCoeffToAdmittance g = Some y /\ admittanceToRflCoeff y = Some g).
Proof.
  split; [apply impedance_round_trip | apply admittance_round_trip]; exact H.
Qed.

Lemma rflCoeff_round_trip_witness :
  Complex_abs (Complex_from (1/2) (1/2)) < 1 - 1e-5 /\
  ((exists z, rflCoeffToImpedance (Complex_from (1/2) (1/2)) = Some z /\
              impedanceToRflCoeff z = Some (Complex_from (1/2) (1/2))) /\
   (exists y, rflCoeffToAdmittance (Complex_from (1/2) (1/2)) = Some y /\
              admittanceToRflCoeff y = Some (Complex_from (1/2) (1/2)))).
Proof.
  assert (Habs : Complex_abs (Complex_from (1/2) (1/2)) < 1 - 1e-5).
  { unfold Complex_abs; simpl.
    apply Rsqr_incrst_0; [| apply sqrt_pos | lra].
    rewrite Rsqr_sqrt by nra; unfold Rsqr; lra. }
  split; [exact Habs | apply (rflCoeff_round_trip (Complex_from (1/2) (1/2)) Habs)].
Defined.

(** ** Circle generators *)

(** [C3]: on its domain, each generator returns the circle of the table of
    spec section 4.4, and in particular [resistanceCircle 1] is the circle
    of center [(0.5, 0)] and radius [0.5], [reactanceCircle 1] the circle of
    center [(1, 1)] and radius [1]. *)
Theorem circle_generators_table (n m k s q : R)
  (Hn : n <> -1) (Hm : m <> 0) (Hk : k <> -1) (Hs : s <> 0) (Hq : q <> 0) :
  p (resistanceCircle n) = (n / (n + 1), 0) /\ r (resistanceCircle n) = 1 / (n + 1) /\
  p (reactanceCircle m) = (1, 1 / m) /\ r (reactanceCircle m) = Rabs (1 / m) /\
  p (conductanceCircle k) = (- k / (k + 1), 0) /\ r (conductanceCircle k) = 1 / (k + 1) /\
  p (susceptanceCircle s) = (-1, -1 / s) /\ r (susceptanceCircle s) = Rabs (1 / s) /\
  p (constQCircle q) = (0, 1 / q) /\ r (constQCircle q) = sqrt (1 + 1 / (q * q)) /\
  resistanceCircle 1 = mkCircle (0.5, 0) 0.5 /\
  reactanceCircle 1 = mkCircle (1, 1) 1.
Proof.
  repeat split; unfold resistanceCircle, reactanceCircle; f_equal; try f_equal.
  - lra.
  - lra.
  - lra.
  - unfold Rdiv; rewrite Rinv_1, Rmult_1_l, Rabs_R1; reflexivity.
Qed.

Lemma circle_generators_table_witness :
  (1 <> -1 /\ 1 <> 0 /\ 2 <> -1 /\ -3 <> 0 /\ 4 <> 0) /\
  (p (resistanceCircle 1) = (1 / (1 + 1), 0) /\ r (resistanceCircle 1) = 1 / (1 + 1) /\
   p (reactanceCircle 1) = (1, 1 / 1) /\ r (reactanceCircle 1) = Rabs (1 / 1) /\
   p (conductanceCircle 2) = (- 2 / (2 + 1), 0) /\ r (conductanceCircle 2) = 1 / (2 + 1) /\
   p (susceptanceCircle (-3)) = (-1, -1 / -3) /\
   r (susceptanceCircle (-3)) = Rabs (1 / -3) /\
   p (constQCircle 4) = (0, 1 / 4) /\ r (constQCircle 4) = sqrt (1 + 1 / (4 * 4)) /\
   resistanceCircle 1 = mkCircle (0.5, 0) 0.5 /\
   reactanceCircle 1 = mkCircle (1, 1) 1).
Proof.
  assert (H : 1 <> -1 /\ 1 <> 0 /\ 2 <> -1 /\ -3 <> 0 /\ 4 <> 0) by lra.
  destruct H as (H1 & H2 & H3 & H4 & H5).
  split; [lra | exact (circle_generators_table 1 1 2 (-3) 4 H1 H2 H3 H4 H5)].
Defined.

(** [C9], counterexample: [resistanceCircle (-2)] and
    [conductanceCircle (-2)] have [-2 <> -1] but radius [1/(-2+1) = -1]. *)
Lemma resistanceCircle_negative_radius :
  r (resistanceCircle (-2)) = -1 /\ r (conductanceCircle (-2)) = -1.
Proof.
  unfold resistanceCircle, conductanceCircle; simpl; split; field.
Qed.

(** [C9], amended: the radius of [reactanceCircle], [susceptanceCircle] and
    [constQCircle] is non-negative for every [n <> 0]; the radius [1/(n+1)]
    of [resistanceCircle] and [conductanceCircle] is non-negative for
    [n > -1] and negative for [n < -1]. *)
Theorem circle_radius_sign (n m k : R)
  (Hn : -1 < n) (Hm : m <> 0) (Hk : k < -1) :
  0 <= r (resistanceCircle n) /\ 0 <= r (conductanceCircle n) /\
  0 <= r (reactanceCircle m) /\ 0 <= r (susceptanceCircle m) /\
  0 <= r (constQCircle m) /\
  r (resistanceCircle k) < 0 /\ r (conductanceCircle k) < 0.
Proof.
  unfold resistanceCircle, conductanceCircle, reactanceCircle,
    susceptanceCircle, constQCircle; simpl.
  assert (Hpos : 0 < 1 / (n + 1)) by (apply Rdiv_lt_0_compat; lra).
  assert (Hneg : 1 / (k + 1) < 0).
  { unfold Rdiv; rewrite Rmult_1_l; apply Rinv_lt_0_compat; lra. }
  repeat split; try lra; try apply Rabs_pos; apply sqrt_pos.
Qed.

Lemma circle_radius_sign_witness :
  (-1 < 0 /\ 1 <> 0 /\ -2 < -1) /\
  (0 <= r (resistanceCircle 0) /\ 0 <= r (conductanceCircle 0) /\
   0 <= r (reactanceCircle 1) /\ 0 <= r (susceptanceCircle 1) /\
   0 <= r (constQCircle 1) /\
   r (resistanceCircle (-2)) < 0 /\ r (conductanceCircle (-2)) < 0).
Proof.
  assert (H : -1 < 0 /\ 1 <> 0 /\ -2 < -1) by lra.
  destruct H as (H1 & H2 & H3).
  split; [lra | exact (circle_radius_sign 0 1 (-2) H1 H2 H3)].
Defined.

(** ** Circle-circle intersection *)

Lemma rotation_norm (a b C S : R) :
  (a * C - b * S) * (a * C - b * S) + (a * S + b * C) * (a * S + b * C) =
  (a * a + b * b) * (C * C + S * S).
Proof. ring. Qed.

(** When the centers differ, [c1] has a nonzero radius and the cosine of
    the construction is at most [1] in magnitude, both returned points lie
    exactly on both circles. *)
Lemma circleCircleIntersection_on_circles (x1 y1 r1 x2 y2 r2 : R) :
  0 < pow2 (x2 - x1) + pow2 (y2 - y1) ->
  r1 <> 0 ->
  (let dl := sqrt (pow2 (x2 - x1) + pow2 (y2 - y1)) in
   pow2 ((dl * dl + r1 * r1 - r2 * r2) / (2 * dl * r1)) <= 1) ->
  Forall (fun pt => pow2 (fst pt - x1) + pow2 (snd pt - y1) = pow2 r1 /\
                    pow2 (fst pt - x2) + pow2 (snd pt - y2) = pow2 r2)
    (circleCircleIntersection (mkCircle (x1, y1) r1) (mkCircle (x2, y2) r2)).
Proof.
  intros HD Hr1 Hcos; cbv zeta in Hcos.
  unfold circleCircleIntersection; simpl.
  set (D := pow2 (x2 - x1) + pow2 (y2 - y1)) in *.
  set (dl := sqrt D) in *.
  set (C := (dl * dl + r1 * r1 - r2 * r2) / (2 * dl * r1)) in *.
  set (S := sqrt (1 - pow2 C)).
  set (vpx := (x2 - x1) * r1 / dl).
  set (vpy := (y2 - y1) * r1 / dl).
  assert (Hdl2 : dl * dl = D) by (apply sqrt_sqrt; lra).
  assert (Hdl : 0 < dl) by (apply sqrt_lt_R0; lra).
  assert (HS : S * S = 1 - C * C) by (apply sqrt_sqrt; unfold pow2 in *; lra).
  assert (Hv : vpx * vpx + vpy * vpy = r1 * r1).
  { unfold vpx, vpy.
    replace ((x2 - x1) * r1 / dl * ((x2 - x1) * r1 / dl) +
             (y2 - y1) * r1 / dl * ((y2 - y1) * r1 / dl))
      with (D * (r1 * r1) / (dl * dl)) by (unfold D, pow2; field; lra).
    rewrite Hdl2; field; lra. }
  assert (Hdot : (x2 - x1) * vpx + (y2 - y1) * vpy = r1 * dl).
  { unfold vpx, vpy.
    replace ((x2 - x1) * ((x2 - x1) * r1 / dl) + (y2 - y1) * ((y2 - y1) * r1 / dl))
      with (D * r1 / dl) by (unfold D, pow2; field; lra).
    rewrite <- Hdl2; field; lra. }
  assert (Hcross : (y2 - y1) * vpx - (x2 - x1) * vpy = 0).
  { unfold vpx, vpy; field; lra. }
  assert (HC : C * (2 * dl * r1) = dl * dl + r1 * r1 - r2 * r2).
  { unfold C; field; split; lra. }
  assert (HDsq : (x2 - x1) * (x2 - x1) + (y2 - y1) * (y2 - y1) = dl * dl).
  { rewrite Hdl2; reflexivity. }
  repeat constructor; unfold pow2; cbn [fst snd].
  - transitivity ((vpx * vpx + vpy * vpy) * (C * C + S * S)); [ring |].
    rewrite Hv, HS; ring.
  - transitivity ((vpx * vpx + vpy * vpy) * (C * C + S * S)
                  - 2 * (C * ((x2 - x1) * vpx + (y2 - y1) * vpy)
                         + S * ((y2 - y1) * vpx - (x2 - x1) * vpy))
                  + ((x2 - x1) * (x2 - x1) + (y2 - y1) * (y2 - y1))); [ring |].
    rewrite Hv, HS, Hdot, Hcross, HDsq.
    transitivity (r1 * r1 + dl * dl - C * (2 * dl * r1)); [ring |].
    rewrite HC; ring.
  - transitivity ((vpx * vpx + vpy * vpy) * (C * C + S * S)); [ring |].
    rewrite Hv, HS; ring.
  - transitivity ((vpx * vpx + vpy * vpy) * (C * C + S * S)
                  - 2 * (C * ((x2 - x1) * vpx + (y2 - y1) * vpy)
                         - S * ((y2 - y1) * vpx - (x2 - x1) * vpy))
                  + ((x2 - x1) * (x2 - x1) + (y2 - y1) * (y2 - y1))); [ring |].
    rewrite Hv, HS, Hdot, Hcross, HDsq.
    transitivity (r1 * r1 + dl * dl - C * (2 * dl * r1)); [ring |].
    rewrite HC; ring.
Qed.

Lemma resistanceCircle_1 : resistanceCircle 1 = mkCircle (1 / 2, 0) (1 / 2).
Proof. unfold resistanceCircle; do 2 f_equal; field. Qed.

Lemma reactanceCircle_1 : reactanceCircle 1 = mkCircle (1, 1) 1.
Proof.
  unfold reactanceCircle; unfold Rdiv; rewrite Rinv_1, Rmult_1_l, Rabs_R1.
  reflexivity.
Qed.

(** [C4]: [circleCircleIntersection (resistanceCircle 1) (reactanceCircle 1)]
    returns two points, and each of them is within both circles up to the
    tolerance [1e-6]: [(x - cx)^2 + (y - cy)^2 <= r^2 + 1e-6]; in real
    arithmetic they lie exactly on both circles, so [isPointWithinCircle]
    holds for them as well. *)
Theorem resistance_reactance_intersection_within :
  length (circleCircleIntersection (resistanceCircle 1) (reactanceCircle 1)) = 2%nat /\
  Forall (fun pt =>
    Forall (fun c =>
      pow2 (fst pt - fst (p c)) + pow2 (snd pt - snd (p c)) <= pow2 (r c) + 1e-6 /\
      isPointWithinCircle pt c = true)
      [resistanceCircle 1; reactanceCircle 1])
    (circleCircleIntersection (resistanceCircle 1) (reactanceCircle 1)).
Proof.
  rewrite resistanceCircle_1, reactanceCircle_1.
  split; [reflexivity |].
  assert (HD : 0 < pow2 (1 - 1 / 2) + pow2 (1 - 0)) by (unfold pow2; lra).
  assert (Hr : 1 / 2 <> 0) by lra.
  assert (Hcos : let dl := sqrt (pow2 (1 - 1 / 2) + pow2 (1 - 0)) in
                 pow2 ((dl * dl + 1 / 2 * (1 / 2) - 1 * 1) / (2 * dl * (1 / 2))) <= 1).
  { cbv zeta.
    set (dl := sqrt (pow2 (1 - 1 / 2) + pow2 (1 - 0))).
    assert (Hdl2 : dl * dl = 5 / 4) by (unfold dl; rewrite sqrt_sqrt; unfold pow2; lra).
    assert (Hdl : 0 < dl) by (unfold dl; apply sqrt_lt_R0; exact HD).
    unfold pow2.
    replace ((dl * dl + 1 / 2 * (1 / 2) - 1 * 1) / (2 * dl * (1 / 2)) *
             ((dl * dl + 1 / 2 * (1 / 2) - 1 * 1) / (2 * dl * (1 / 2))))
      with ((dl * dl - 3 / 4) * (dl * dl - 3 / 4) / (dl * dl)) by (field; lra).
    rewrite Hdl2; lra. }
  pose proof (circleCircleIntersection_on_circles (1 / 2) 0 (1 / 2) 1 1 1 HD Hr Hcos)
    as Hon.
  revert Hon; apply Forall_impl; intros pt [H1 H2].
  unfold isPointWithinCircle.
  repeat constructor; simpl.
  - rewrite H1; lra.
  - rewrite H1; destruct (Rle_dec _ _) as [_ | Hn]; [reflexivity | lra].
  - rewrite H2; lra.
  - rewrite H2; destruct (Rle_dec _ _) as [_ | Hn]; [reflexivity | lra].
Qed.

(** ** JavaScript number operations on finite operands *)

Lemma js_div_fin (a b : R) : b <> 0 -> js_div (Fin a) (Fin b) = Fin (a / b).
Proof. intro Hb; simpl; destruct (Req_EM_T b 0); [contradiction | reflexivity]. Qed.

Lemma js_log10_pos (a : R) : 0 < a -> js_log10 (Fin a) = Fin (log10 a).
Proof. intro Ha; simpl; destruct (Rlt_dec 0 a); [reflexivity | contradiction]. Qed.

Lemma js_sqrt_nonneg (a : R) : 0 <= a -> js_sqrt (Fin a) = Fin (sqrt a).
Proof. intro Ha; simpl; destruct (Rlt_dec a 0); [lra | reflexivity]. Qed.

Lemma ln_10_pos : 0 < ln 10.
Proof. rewrite <- ln_1; apply ln_increasing; lra. Qed.

Lemma log10_Rpower10 (y : R) : log10 (Rpower 10 y) = y.
Proof.
  pose proof ln_10_pos.
  unfold log10, Rpower; rewrite ln_exp; field; lra.
Qed.

Lemma Rpower10_log10 (x : R) : 0 < x -> Rpower 10 (log10 x) = x.
Proof.
  intro Hx; pose proof ln_10_pos.
  unfold log10, Rpower.
  replace (ln x / ln 10 * ln 10) with (ln x) by (field; lra).
  apply exp_ln; exact Hx.
Qed.

Lemma Complex_abs_real (x : R) : 0 <= x -> Complex_abs (Complex_from x 0) = x.
Proof.
  intro Hx; unfold Complex_abs; simpl.
  replace (x * x + 0 * 0) with (Rsqr x) by (unfold Rsqr; ring).
  apply sqrt_Rsqr; exact Hx.
Qed.

(** ** Frequency and wavelength *)

Lemma waveLengthFromFrequency_fin (f : R) :
  0 < f -> waveLengthFromFrequency (Fin f) = Fin (299792458 / f).
Proof. intro Hf; apply js_div_fin; lra. Qed.

(** [C5]: [frequencyFromWaveLength] multiplies by the speed of light
    instead of dividing: at the wavelength [2] it returns [599584916],
    not [299792458 / 2], while [waveLengthFromFrequency 2] is
    [299792458 / 2]. *)
Theorem frequencyFromWaveLength_at_2 :
  frequencyFromWaveLength (Fin 2) = Fin 599584916 /\
  599584916 <> 299792458 / 2 /\
  waveLengthFromFrequency (Fin 2) = Fin (299792458 / 2).
Proof.
  split; [| split].
  - unfold frequencyFromWaveLength; simpl; f_equal; lra.
  - lra.
  - apply js_div_fin; lra.
Qed.

(** ** Q *)

Lemma rflCoeffToImpedance_0_1 :
  rflCoeffToImpedance (Complex_from 0 1) = Some (Complex_from 0 1).
Proof.
  unfold rflCoeffToImpedance; cbv zeta; simpl.
  replace ((1 - 0) * (1 - 0) + 1 * 1) with 2 by ring.
  destruct (Rlt_dec (Rabs 2) epsilon) as [H | _].
  { rewrite Rabs_pos_eq in H by lra; unfold epsilon in H; lra. }
  f_equal; f_equal; field.
Qed.

(** [C6], counterexample: at [gamma = (0, 1)] the impedance is [(0, 1)],
    with zero real part, and [rflCoeffToQ] returns [+Infinity], not
    "no value". *)
Lemma rflCoeffToQ_zero_resistance_infinite :
  (exists z, rflCoeffToImpedance (Complex_from 0 1) = Some z /\ real z = 0) /\
  rflCoeffToQ (Complex_from 0 1) = Some PInf.
Proof.
  split.
  - exists (Complex_from 0 1); split; [exact rflCoeffToImpedance_0_1 | reflexivity].
  - unfold rflCoeffToQ; rewrite rflCoeffToImpedance_0_1; simpl.
    destruct (Req_EM_T 0 0) as [_ | H]; [| contradiction].
    unfold inf_of_sign; destruct (Rlt_dec 0 1) as [_ | H]; [reflexivity | lra].
Qed.

(** [C6], amended: [rflCoeffToQ gamma] returns no value exactly when
    [rflCoeffToImpedance gamma] does; otherwise, for the impedance
    [(zr, zi)], it returns [|zi / zr|] when [zr <> 0], [+Infinity] when
    [zr = 0] and [zi <> 0], and [NaN] when [zr = zi = 0]: the zero-resistance
    case is not mapped to "no value". *)
Theorem rflCoeffToQ_cases (g : Complex) :
  (rflCoeffToQ g = None <-> rflCoeffToImpedance g = None) /\
  (forall z, rflCoeffToImpedance g = Some z ->
     (real z <> 0 -> rflCoeffToQ g = Some (Fin (Rabs (imag z / real z)))) /\
     (real z = 0 -> imag z <> 0 -> rflCoeffToQ g = Some PInf) /\
     (real z = 0 -> imag z = 0 -> rflCoeffToQ g = Some NaN)).
Proof.
  unfold rflCoeffToQ.
  destruct (rflCoeffToImpedance g) as [z0 |].
  - split; [split; discriminate |].
    intros z Hz; injection Hz as <-.
    split; [| split].
    + intro Hr; rewrite js_div_fin by exact Hr; reflexivity.
    + intros Hr Hi; rewrite Hr; simpl.
      destruct (Req_EM_T 0 0) as [_ | H]; [| contradiction].
      unfold inf_of_sign.
      destruct (Rlt_dec 0 (imag z0)); [reflexivity |].
      destruct (Rlt_dec (imag z0) 0); [reflexivity | lra].
    + intros Hr Hi; rewrite Hr, Hi; simpl.
      destruct (Req_EM_T 0 0) as [_ | H]; [| contradiction].
      unfold inf_of_sign.
      destruct (Rlt_dec 0 0); [lra |].
      destruct (Rlt_dec 0 0); [lra | reflexivity].
  - split; [split; reflexivity |].
    intros z Hz; discriminate.
Qed.

(** ** Inverse pairs of the scalar metrics *)

Lemma returnLoss_round_trip (rl : R) :
  exists x, returnLossToRflCoeffEOrI (Fin rl) = Fin x /\
            rflCoeffToReturnLoss (Complex_from x 0) = Fin rl.
Proof.
  exists (Rpower 10 (- rl / 20)); split.
  - unfold returnLossToRflCoeffEOrI, js_neg.
    rewrite js_div_fin by lra; reflexivity.
  - set (x := Rpower 10 (- rl / 20)).
    assert (Hx : 0 < x) by (unfold x, Rpower; apply exp_pos).
    unfold rflCoeffToReturnLoss, rflCoeffEOrI, rflCoeffP, js_pow2.
    rewrite Complex_abs_real by lra; cbn [js_mul].
    rewrite js_sqrt_nonneg by nra.
    replace (sqrt (x * x)) with x by (symmetry; apply sqrt_square; lra).
    rewrite js_log10_pos by exact Hx; simpl.
    unfold x; rewrite log10_Rpower10; f_equal; field.
Qed.

Lemma swr_dBS_round_trip (swr : R) (g : Complex) :
  1 <= swr ->
  Fin (Complex_abs g) = swrToRflCoeffEOrI (Fin swr) ->
  dBSToSwr (swrTodBS (rflCoeffToSwr g)) = Fin swr.
Proof.
  intros Hs Hg.
  unfold swrToRflCoeffEOrI in Hg; cbn [js_sub js_add js_neg] in Hg.
  rewrite js_div_fin in Hg by lra.
  injection Hg as Hg.
  unfold rflCoeffToSwr; rewrite Hg; cbn [js_sub js_add js_neg].
  assert (Hden : 1 + - ((swr + - (1)) / (swr + 1)) = 2 / (swr + 1)) by (field; lra).
  assert (Hpos : 0 < 2 / (swr + 1)) by (apply Rdiv_lt_0_compat; lra).
  rewrite js_div_fin by lra.
  replace ((1 + (swr + - (1)) / (swr + 1)) / (1 + - ((swr + - (1)) / (swr + 1))))
    with swr by (field; lra).
  unfold swrTodBS, dBSToSwr.
  rewrite js_log10_pos by lra; cbn [js_mul].
  rewrite js_div_fin by lra; cbn [js_pow10].
  replace (20 * log10 swr / 20) with (log10 swr) by field.
  rewrite Rpower10_log10 by lra; reflexivity.
Qed.

(** [C7]: for every [rl >= 0], [rflCoeffToReturnLoss] of the complex value
    [(returnLossToRflCoeffEOrI rl, 0)] is [rl]; for every [swr >= 1] and
    every [gamma] with [|gamma| = swrToRflCoeffEOrI swr],
    [dBSToSwr (swrTodBS (rflCoeffToSwr gamma))] is [swr].  In real
    arithmetic both compositions are exact. *)
Theorem scalar_metric_inverses (rl swr : R) (g : Complex)
  (Hrl : 0 <= rl) (Hs : 1 <= swr)
  (Hg : Fin (Complex_abs g) = swrToRflCoeffEOrI (Fin swr)) :
  (exists x, returnLossToRflCoeffEOrI (Fin rl) = Fin x /\
             rflCoeffToReturnLoss (Complex_from x 0) = Fin rl) /\
  dBSToSwr (swrTodBS (rflCoeffToSwr g)) = Fin swr.
Proof.
  split; [apply returnLoss_round_trip | apply swr_dBS_round_trip; assumption].
Qed.

Lemma scalar_metric_inverses_witness :
  (0 <= 3 /\ 1 <= 3 /\
   Fin (Complex_abs (Complex_from (1 / 2) 0)) = swrToRflCoeffEOrI (Fin 3)) /\
  ((exists x, returnLossToRflCoeffEOrI (Fin 3) = Fin x /\
              rflCoeffToReturnLoss (Complex_from x 0) = Fin 3) /\
   dBSToSwr (swrTodBS (rflCoeffToSwr (Complex_from (1 / 2) 0))) = Fin 3).
Proof.
  assert (H1 : 0 <= 3) by lra.
  assert (H2 : 1 <= 3) by lra.
  assert (H3 : Fin (Complex_abs (Complex_from (1 / 2) 0)) = swrToRflCoeffEOrI (Fin 3)).
  { rewrite Complex_abs_real by lra.
    unfold swrToRflCoeffEOrI; cbn [js_sub js_add js_neg].
    rewrite js_div_fin by lra; f_equal; field. }
  split; [split; [exact H1 | split; [exact H2 | exact H3]] |].
  exact (scalar_metric_inverses 3 3 (Complex_from (1 / 2) 0) H1 H2 H3).
Defined.

(** ** The matched load *)

Lemma rflCoeffToImpedance_0 :
  rflCoeffToImpedance (Complex_from 0 0) = Some (Complex_from 1 0).
Proof.
  unfold rflCoeffToImpedance; cbv zeta; simpl.
  replace ((1 - 0) * (1 - 0) + 0 * 0) with 1 by ring.
  destruct (Rlt_dec (Rabs 1) epsilon) as [H | _].
  { rewrite Rabs_R1 in H; unfold epsilon in H; lra. }
  f_equal; f_equal; field.
Qed.

Lemma rflCoeffToAdmittance_0 :
  rflCoeffToAdmittance (Complex_from 0 0) = Some (Complex_from 1 0).
Proof.
  unfold rflCoeffToAdmittance; cbv zeta; simpl.
  replace ((0 + 1) * (0 + 1) + 0 * 0) with 1 by ring.
  destruct (Rlt_dec (Rabs 1) epsilon) as [H | _].
  { rewrite Rabs_R1 in H; unfold epsilon in H; lra. }
  f_equal; f_equal; field.
Qed.

Lemma rflCoeffEOrI_0 : rflCoeffEOrI (Complex_from 0 0) = Fin 0.
Proof.
  unfold rflCoeffEOrI, rflCoeffP, js_pow2.
  rewrite Complex_abs_real by lra; cbn [js_mul].
  rewrite js_sqrt_nonneg by lra.
  rewrite Rmult_0_l, sqrt_0; reflexivity.
Qed.

(** [C8]: with [Z0 = 50] and [gamma = (0, 0)], [Smith.calcImpedance]
    gives [(50, 0)]; the normalized admittance is [(1, 0)], i.e. [0.02] S
    once divided by [Z0], and [Smith.calcAdmittance] gives [(20, 0)] mS;
    the SWR is [1], the return loss is [+Infinity] and the mismatch loss
    is [0]. *)
Theorem matched_load_readouts :
  Smith.calcImpedance 50 (0, 0) = Some (50, 0) /\
  reflectionCoefficientToAdmittance (0, 0) = Some (1, 0) /\
  1 * (1 / 50) = 0.02 /\
  Smith.calcAdmittance 50 (0, 0) = Some (20, 0) /\
  rflCoeffToSwr (Complex_from 0 0) = Fin 1 /\
  rflCoeffToReturnLoss (Complex_from 0 0) = PInf /\
  rflCoeffToMismatchLoss (Complex_from 0 0) = Fin 0.
Proof.
  split; [| split; [| split; [| split; [| split; [| split]]]]].
  - unfold Smith.calcImpedance, reflectionCoefficientToImpedance; simpl.
    rewrite rflCoeffToImpedance_0; simpl; f_equal; f_equal; ring.
  - unfold reflectionCoefficientToAdmittance; simpl.
    rewrite rflCoeffToAdmittance_0; reflexivity.
  - lra.
  - unfold Smith.calcAdmittance, reflectionCoefficientToAdmittance; simpl.
    rewrite rflCoeffToAdmittance_0; simpl; f_equal; f_equal; field.
  - unfold rflCoeffToSwr; rewrite Complex_abs_real by lra.
    cbn [js_add js_sub js_neg].
    rewrite js_div_fin by lra; f_equal; field.
  - unfold rflCoeffToReturnLoss; rewrite rflCoeffEOrI_0; simpl.
    destruct (Rlt_dec 0 0) as [H | _]; [lra |].
    destruct (Req_EM_T 0 0) as [_ | H]; [| contradiction].
    unfold inf_of_sign.
    destruct (Rlt_dec 0 (-20)) as [H | _]; [lra |].
    destruct (Rlt_dec (-20) 0) as [_ | H]; [reflexivity | lra].
  - unfold rflCoeffToMismatchLoss; rewrite rflCoeffEOrI_0.
    unfold js_pow2; cbn [js_mul js_sub js_add js_neg].
    rewrite js_log10_pos by lra; cbn [js_mul].
    replace (1 + - (0 * 0)) with 1 by ring.
    unfold log10; rewrite ln_1; f_equal; field.
    apply Rgt_not_eq, ln_10_pos.
Qed.

(** * Further properties of the engine *)

(** ** Round trips from the impedance and admittance planes *)

Lemma four_div_ge_epsilon (d : R) :
  epsilon <= d -> d <= 4 / epsilon -> epsilon <= 4 / d.
Proof.
  intros H1 H2; pose proof epsilon_pos as He.
  apply (Rmult_le_reg_r d); [lra |].
  replace (4 / d * d) with 4 by (field; lra).
  apply (Rmult_le_compat_l epsilon) in H2; [| lra].
  replace (epsilon * (4 / epsilon)) with 4 in H2 by (field; lra).
  lra.
Qed.

Lemma impedanceToRflCoeff_inverse_in_range (z : Complex)
  (H1 : epsilon <= impedanceToRflCoeff_d z) (H2 : impedanceToRflCoeff_d z <= 4 / epsilon) :
  exists g, impedanceToRflCoeff z = Some g /\ rflCoeffToImpedance g = Some z.
Proof.
  pose proof epsilon_pos as He.
  pose proof (four_div_ge_epsilon _ H1 H2) as H4.
  destruct z as [zr zi]; unfold impedanceToRflCoeff_d in *; simpl in *.
  unfold impedanceToRflCoeff; cbv zeta; simpl.
  set (d := (zr + 1) * (zr + 1) + zi * zi) in *.
  assert (Hd : d <> 0) by lra.
  destruct (Rlt_dec (Rabs d) epsilon) as [Hlt | _].
  { rewrite Rabs_pos_eq in Hlt; lra. }
  eexists; split; [reflexivity |].
  unfold rflCoeffToImpedance; cbv zeta; simpl.
  assert (Hd' : (1 - (zr * zr + zi * zi - 1) / d) * (1 - (zr * zr + zi * zi - 1) / d) +
                2 * zi / d * (2 * zi / d) = 4 / d).
  { unfold d in *; field; exact Hd. }
  rewrite Hd'.
  destruct (Rlt_dec (Rabs (4 / d)) epsilon) as [Hlt | _].
  { rewrite Rabs_pos_eq in Hlt by lra; lra. }
  do 2 f_equal; unfold d in *; field; exact Hd.
Qed.

(** [impedanceToRflCoeff] followed by [rflCoeffToImpedance] returns the
    impedance, as long as its denominator [(zr + 1)^2 + zi^2] lies in
    [[epsilon, 4 / epsilon]] (the second bound keeps the reflection
    coefficient away from the guard at [1]). *)
Theorem impedance_reverse_round_trip (z : Complex)
  (H1 : epsilon <= impedanceToRflCoeff_d z) (H2 : impedanceToRflCoeff_d z <= 4 / epsilon) :
  exists g, impedanceToRflCoeff z = Some g /\ rflCoeffToImpedance g = Some z.
Proof. exact (impedanceToRflCoeff_inverse_in_range z H1 H2). Qed.

Lemma impedance_reverse_round_trip_witness :
  (epsilon <= impedanceToRflCoeff_d (Complex_from 1 1) /\
   impedanceToRflCoeff_d (Complex_from 1 1) <= 4 / epsilon) /\
  exists g, impedanceToRflCoeff (Complex_from 1 1) = Some g /\
            rflCoeffToImpedance g = Some (Complex_from 1 1).
Proof.
  assert (H1 : epsilon <= impedanceToRflCoeff_d (Complex_from 1 1))
    by (unfold impedanceToRflCoeff_d, epsilon; simpl; lra).
  assert (H2 : impedanceToRflCoeff_d (Complex_from 1 1) <= 4 / epsilon)
    by (unfold impedanceToRflCoeff_d, epsilon; simpl; lra).
  split; [split; [exact H1 | exact H2] | exact (impedance_reverse_round_trip _ H1 H2)].
Defined.

Lemma admittanceToRflCoeff_inverse_in_range (y : Complex)
  (H1 : epsilon <= admittanceToRflCoeff_d y) (H2 : admittanceToRflCoeff_d y <= 4 / epsilon) :
  exists g, admittanceToRflCoeff y = Some g /\ rflCoeffToAdmittance g = Some y.
Proof.
  pose proof epsilon_pos as He.
  pose proof (four_div_ge_epsilon _ H1 H2) as H4.
  destruct y as [yr yi]; unfold admittanceToRflCoeff_d in *; simpl in *.
  unfold admittanceToRflCoeff; cbv zeta; simpl.
  set (d := (yr + 1) * (yr + 1) + yi * yi) in *.
  assert (Hd : d <> 0) by lra.
  destruct (Rlt_dec (Rabs d) epsilon) as [Hlt | _].
  { rewrite Rabs_pos_eq in Hlt; lra. }
  eexists; split; [reflexivity |].
  unfold rflCoeffToAdmittance; cbv zeta; simpl.
  assert (Hd' : ((1 - yr * yr - yi * yi) / d + 1) * ((1 - yr * yr - yi * yi) / d + 1) +
                -2 * yi / d * (-2 * yi / d) = 4 / d).
  { unfold d in *; field; exact Hd. }
  rewrite Hd'.
  destruct (Rlt_dec (Rabs (4 / d)) epsilon) as [Hlt | _].
  { rewrite Rabs_pos_eq in Hlt by lra; lra. }
  do 2 f_equal; unfold d in *; field; exact Hd.
Qed.

(** [admittanceToRflCoeff] followed by [rflCoeffToAdmittance] returns the
    admittance when [(yr + 1)^2 + yi^2] lies in [[epsilon, 4 / epsilon]]. *)
Theorem admittance_reverse_round_trip (y : Complex)
  (H1 : epsilon <= admittanceToRflCoeff_d y) (H2 : admittanceToRflCoeff_d y <= 4 / epsilon) :
  exists g, admittanceToRflCoeff y = Some g /\ rflCoeffToAdmittance g = Some y.
Proof. exact (admittanceToRflCoeff_inverse_in_range y H1 H2). Qed.

Lemma admittance_reverse_round_trip_witness :
  (epsilon <= admittanceToRflCoeff_d (Complex_from 2 (-1)) /\
   admittanceToRflCoeff_d (Complex_from 2 (-1)) <= 4 / epsilon) /\
  exists g, admittanceToRflCoeff (Complex_from 2 (-1)) = Some g /\
            rflCoeffToAdmittance g = Some (Complex_from 2 (-1)).
Proof.
  assert (H1 : epsilon <= admittanceToRflCoeff_d (Complex_from 2 (-1)))
    by (unfold admittanceToRflCoeff_d, epsilon; simpl; lra).
  assert (H2 : admittanceToRflCoeff_d (Complex_from 2 (-1)) <= 4 / epsilon)
    by (unfold admittanceToRflCoeff_d, epsilon; simpl; lra).
  split; [split; [exact H1 | exact H2] | exact (admittance_reverse_round_trip _ H1 H2)].
Defined.

(** [admittanceToRflCoeff] is [impedanceToRflCoeff] followed by
    negation: both are undefined on the same inputs, and elsewhere the
    reflection coefficient read from an admittance is the opposite of the
    one read from the same value taken as an impedance. *)
Theorem admittanceToRflCoeff_is_neg_impedanceToRflCoeff (c : Complex) :
  admittanceToRflCoeff c = option_map Complex_neg (impedanceToRflCoeff c).
Proof.
  destruct c as [yr yi].
  unfold admittanceToRflCoeff, impedanceToRflCoeff; cbv zeta; simpl.
  guard_cases; [reflexivity |].
  unfold Complex_neg; simpl; do 2 f_equal; unfold Rdiv; ring.
Qed.

(** ** Passivity *)

Lemma Complex_abs_lt_1 (g : Complex) :
  Complex_abs g < 1 <-> real g * real g + imag g * imag g < 1.
Proof.
  destruct (Complex_abs_facts g) as [H0 H1].
  split; intro H; nra.
Qed.

Lemma Complex_abs_eq_1 (g : Complex) :
  Complex_abs g = 1 <-> real g * real g + imag g * imag g = 1.
Proof.
  destruct (Complex_abs_facts g) as [H0 H1].
  split; intro H; [nra |].
  assert (Hsq : (Complex_abs g - 1) * (Complex_abs g + 1) = 0) by nra.
  apply Rmult_integral in Hsq; lra.
Qed.

Lemma Complex_abs_le_1 (g : Complex) :
  Complex_abs g <= 1 <-> real g * real g + imag g * imag g <= 1.
Proof.
  destruct (Complex_abs_facts g) as [H0 H1].
  split; intro H; nra.
Qed.

(** The sign of [x / d] for a positive [d]. *)
Lemma div_sign (x d : R) :
  0 < d -> (0 < x -> 0 < x / d) /\ (x = 0 -> x / d = 0) /\ (x < 0 -> x / d < 0).
Proof.
  intro Hd; repeat split; intro Hx.
  - apply Rdiv_lt_0_compat; assumption.
  - rewrite Hx; unfold Rdiv; ring.
  - unfold Rdiv; apply Rmult_neg_pos; [exact Hx | apply Rinv_0_lt_compat; exact Hd].
Qed.

(** When [rflCoeffToImpedance] returns a value, its resistance is positive
    inside the unit circle, zero on it and negative outside; the same holds
    for the conductance returned by [rflCoeffToAdmittance]. *)
Theorem transform_resistance_sign (g : Complex) :
  (forall z, rflCoeffToImpedance g = Some z ->
     (Complex_abs g < 1 -> 0 < real z) /\
     (Complex_abs g = 1 -> real z = 0) /\
     (1 < Complex_abs g -> real z < 0)) /\
  (forall y, rflCoeffToAdmittance g = Some y ->
     (Complex_abs g < 1 -> 0 < real y) /\
     (Complex_abs g = 1 -> real y = 0) /\
     (1 < Complex_abs g -> real y < 0)).
Proof.
  pose proof epsilon_pos as He.
  pose proof (Complex_abs_lt_1 g) as Hlt.
  pose proof (Complex_abs_eq_1 g) as Heq.
  pose proof (Complex_abs_le_1 g) as Hle.
  split.
  - intros z Hz; apply rflCoeffToImpedance_some in Hz as [Hd ->]; simpl.
    unfold rflCoeffToImpedance_d in *.
    rewrite Rabs_pos_eq in Hd by nra.
    destruct (div_sign (1 - real g * real g - imag g * imag g)
                ((1 - real g) * (1 - real g) + imag g * imag g)) as (A & B & C); [lra |].
    repeat split; intro H.
    + apply A; apply Hlt in H; lra.
    + apply B; apply Heq in H; lra.
    + apply C; assert (~ Complex_abs g <= 1) as H' by lra; rewrite Hle in H'; lra.
  - intros y Hy; apply rflCoeffToAdmittance_some in Hy as [Hd ->]; simpl.
    unfold rflCoeffToAdmittance_d in *.
    rewrite Rabs_pos_eq in Hd by nra.
    destruct (div_sign (1 - real g * real g - imag g * imag g)
                ((real g + 1) * (real g + 1) + imag g * imag g)) as (A & B & C); [lra |].
    repeat split; intro H.
    + apply A; apply Hlt in H; lra.
    + apply B; apply Heq in H; lra.
    + apply C; assert (~ Complex_abs g <= 1) as H' by lra; rewrite Hle in H'; lra.
Qed.

(** The squared magnitude of the reflection coefficient read from [z]. *)
Lemma rfl_from_impedance_norm (zr zi : R) :
  let d := (zr + 1) * (zr + 1) + zi * zi in
  d <> 0 ->
  (zr * zr + zi * zi - 1) / d * ((zr * zr + zi * zi - 1) / d) + 2 * zi / d * (2 * zi / d) =
  ((zr - 1) * (zr - 1) + zi * zi) / d.
Proof. intros d Hd; unfold d in *; field; exact Hd. Qed.

(** When [impedanceToRflCoeff] (or [admittanceToRflCoeff]) returns a
    reflection coefficient, it lies in the closed unit disk if the real
    part of the input is non-negative, and strictly inside if it is
    positive. *)
Theorem passive_input_in_unit_disk (c : Complex) :
  (forall g, impedanceToRflCoeff c = Some g ->
     (0 <= real c -> Complex_abs g <= 1) /\ (0 < real c -> Complex_abs g < 1)) /\
  (forall g, admittanceToRflCoeff c = Some g ->
     (0 <= real c -> Complex_abs g <= 1) /\ (0 < real c -> Complex_abs g < 1)).
Proof.
  pose proof epsilon_pos as He.
  destruct c as [cr ci].
  assert (Key : forall g, epsilon <= Rabs ((cr + 1) * (cr + 1) + ci * ci) ->
     real g * real g + imag g * imag g =
       ((cr - 1) * (cr - 1) + ci * ci) / ((cr + 1) * (cr + 1) + ci * ci) ->
     (0 <= cr -> Complex_abs g <= 1) /\ (0 < cr -> Complex_abs g < 1)).
  { intros g Hd Hn.
    rewrite Rabs_pos_eq in Hd
      by (apply Rplus_le_le_0_compat; apply Rle_0_sqr).
    split; intro Hc; [apply Complex_abs_le_1 | apply Complex_abs_lt_1]; rewrite Hn;
      [apply (Rmult_le_reg_r ((cr + 1) * (cr + 1) + ci * ci)); [lra |]
      | apply (Rmult_lt_reg_r ((cr + 1) * (cr + 1) + ci * ci)); [lra |]];
      unfold Rdiv; rewrite Rmult_assoc, Rinv_l by lra; nra. }
  split.
  - intros g Hg; apply impedanceToRflCoeff_some in Hg as [Hd ->].
    apply Key; [exact Hd |]; unfold impedanceToRflCoeff_d in *; simpl in *.
    apply rfl_from_impedance_norm; intro H0; rewrite H0, Rabs_R0 in Hd; lra.
  - intros g Hg; apply admittanceToRflCoeff_some in Hg as [Hd ->].
    apply Key; [exact Hd |]; unfold admittanceToRflCoeff_d in *; simpl in *.
    assert (H0 : (cr + 1) * (cr + 1) + ci * ci <> 0)
      by (intro H0; rewrite H0, Rabs_R0 in Hd; lra).
    rewrite <- (rfl_from_impedance_norm cr ci H0); field; exact H0.
Qed.

(** ** The grid circles read back through the transforms *)

Lemma positive_denominator (d : R) : epsilon <= Rabs d -> 0 <= d -> d <> 0.
Proof. intros H1 H2; pose proof epsilon_pos; rewrite Rabs_pos_eq in H1 by lra; lra. Qed.

Lemma sum_sq_nonneg (a b : R) : 0 <= a * a + b * b.
Proof. apply Rplus_le_le_0_compat; apply Rle_0_sqr. Qed.

(** Every reflection coefficient on [resistanceCircle n] at which
    [rflCoeffToImpedance] is defined has normalized resistance [n], and
    every one on [conductanceCircle n] at which [rflCoeffToAdmittance] is
    defined has normalized conductance [n]. *)
Theorem resistance_conductance_circles_constant (n : R) (g : Complex)
  (Hn : n <> -1) :
  (on_circle (real g, imag g) (resistanceCircle n) ->
   forall z, rflCoeffToImpedance g = Some z -> real z = n) /\
  (on_circle (real g, imag g) (conductanceCircle n) ->
   forall y, rflCoeffToAdmittance g = Some y -> real y = n).
Proof.
  destruct g as [gr gi].
  assert (Hs : n + 1 <> 0) by (intro H; apply Hn; lra).
  split.
  - intros Hon z Hz.
    apply rflCoeffToImpedance_some in Hz as [Hd ->].
    unfold rflCoeffToImpedance_d in Hd; simpl in *.
    pose proof (positive_denominator _ Hd (sum_sq_nonneg _ _)) as Hd0.
    unfold on_circle, resistanceCircle, pow2 in Hon; simpl in Hon.
    assert (Hon' : ((n + 1) * gr - n) * ((n + 1) * gr - n) +
                   ((n + 1) * gi) * ((n + 1) * gi) = 1).
    { replace (((n + 1) * gr - n) * ((n + 1) * gr - n) + ((n + 1) * gi) * ((n + 1) * gi))
        with ((n + 1) * (n + 1) *
              ((gr - n / (n + 1)) * (gr - n / (n + 1)) + (gi - 0) * (gi - 0)))
        by (field; exact Hs).
      rewrite Hon; field; exact Hs. }
    assert (E : (n + 1) * (1 - gr * gr - gi * gi - n * ((1 - gr) * (1 - gr) + gi * gi)) =
                1 - (((n + 1) * gr - n) * ((n + 1) * gr - n) +
                     ((n + 1) * gi) * ((n + 1) * gi))) by ring.
    rewrite Hon', Rminus_diag in E.
    apply Rmult_integral in E as [E | E]; [contradiction |].
    apply (Rmult_eq_reg_r ((1 - gr) * (1 - gr) + gi * gi)); [| exact Hd0].
    unfold Rdiv; rewrite Rmult_assoc, Rinv_l by exact Hd0; lra.
  - intros Hon y Hy.
    apply rflCoeffToAdmittance_some in Hy as [Hd ->].
    unfold rflCoeffToAdmittance_d in Hd; simpl in *.
    pose proof (positive_denominator _ Hd (sum_sq_nonneg _ _)) as Hd0.
    unfold on_circle, conductanceCircle, pow2 in Hon; simpl in Hon.
    assert (Hon' : ((n + 1) * gr + n) * ((n + 1) * gr + n) +
                   ((n + 1) * gi) * ((n + 1) * gi) = 1).
    { replace (((n + 1) * gr + n) * ((n + 1) * gr + n) + ((n + 1) * gi) * ((n + 1) * gi))
        with ((n + 1) * (n + 1) *
              ((gr - - n / (n + 1)) * (gr - - n / (n + 1)) + (gi - 0) * (gi - 0)))
        by (field; exact Hs).
      rewrite Hon; field; exact Hs. }
    assert (E : (n + 1) * (1 - gr * gr - gi * gi - n * ((gr + 1) * (gr + 1) + gi * gi)) =
                1 - (((n + 1) * gr + n) * ((n + 1) * gr + n) +
                     ((n + 1) * gi) * ((n + 1) * gi))) by ring.
    rewrite Hon', Rminus_diag in E.
    apply Rmult_integral in E as [E | E]; [contradiction |].
    apply (Rmult_eq_reg_r ((gr + 1) * (gr + 1) + gi * gi)); [| exact Hd0].
    unfold Rdiv; rewrite Rmult_assoc, Rinv_l by exact Hd0; lra.
Qed.

Lemma pow2_Rabs (x : R) : pow2 (Rabs x) = x * x.
Proof. unfold pow2; rewrite <- Rabs_mult, Rabs_pos_eq by apply Rle_0_sqr; reflexivity. Qed.

(** Every reflection coefficient on [reactanceCircle m] at which
    [rflCoeffToImpedance] is defined has normalized reactance [m], and
    every one on [susceptanceCircle m] at which [rflCoeffToAdmittance] is
    defined has normalized susceptance [m]. *)
Theorem reactance_susceptance_circles_constant (m : R) (g : Complex)
  (Hm : m <> 0) :
  (on_circle (real g, imag g) (reactanceCircle m) ->
   forall z, rflCoeffToImpedance g = Some z -> imag z = m) /\
  (on_circle (real g, imag g) (susceptanceCircle m) ->
   forall y, rflCoeffToAdmittance g = Some y -> imag y = m).
Proof.
  destruct g as [gr gi].
  split.
  - intros Hon z Hz.
    apply rflCoeffToImpedance_some in Hz as [Hd ->].
    unfold rflCoeffToImpedance_d in Hd; simpl in *.
    pose proof (positive_denominator _ Hd (sum_sq_nonneg _ _)) as Hd0.
    unfold on_circle, reactanceCircle in Hon; simpl in Hon.
    rewrite pow2_Rabs in Hon; unfold pow2 in Hon.
    assert (E : m * ((1 - gr) * (1 - gr) + gi * gi) - 2 * gi =
                m * ((gr - 1) * (gr - 1) + (gi - 1 / m) * (gi - 1 / m) - 1 / m * (1 / m)))
      by (field; exact Hm).
    rewrite Hon, Rminus_diag, Rmult_0_r in E.
    apply (Rmult_eq_reg_r ((1 - gr) * (1 - gr) + gi * gi)); [| exact Hd0].
    unfold Rdiv; rewrite Rmult_assoc, Rinv_l by exact Hd0; lra.
  - intros Hon y Hy.
    apply rflCoeffToAdmittance_some in Hy as [Hd ->].
    unfold rflCoeffToAdmittance_d in Hd; simpl in *.
    pose proof (positive_denominator _ Hd (sum_sq_nonneg _ _)) as Hd0.
    unfold on_circle, susceptanceCircle in Hon; simpl in Hon.
    rewrite pow2_Rabs in Hon; unfold pow2 in Hon.
    assert (E : m * ((gr + 1) * (gr + 1) + gi * gi) + 2 * gi =
                m * ((gr - -1) * (gr - -1) + (gi - -1 / m) * (gi - -1 / m) - 1 / m * (1 / m)))
      by (field; exact Hm).
    rewrite Hon, Rminus_diag, Rmult_0_r in E.
    apply (Rmult_eq_reg_r ((gr + 1) * (gr + 1) + gi * gi)); [| exact Hd0].
    unfold Rdiv; rewrite Rmult_assoc, Rinv_l by exact Hd0; lra.
Qed.

Lemma resistance_conductance_circles_constant_witness :
  (1 <> -1) /\
  ((on_circle (real (Complex_from 0 0), imag (Complex_from 0 0)) (resistanceCircle 1) ->
    forall z, rflCoeffToImpedance (Complex_from 0 0) = Some z -> real z = 1) /\
   (on_circle (real (Complex_from 0 0), imag (Complex_from 0 0)) (conductanceCircle 1) ->
    forall y, rflCoeffToAdmittance (Complex_from 0 0) = Some y -> real y = 1)).
Proof.
  assert (H : 1 <> -1) by lra.
  split; [exact H | exact (resistance_conductance_circles_constant 1 (Complex_from 0 0) H)].
Defined.

Lemma reactance_susceptance_circles_constant_witness :
  (1 <> 0) /\
  ((on_circle (real (Complex_from 0 1), imag (Complex_from 0 1)) (reactanceCircle 1) ->
    forall z, rflCoeffToImpedance (Complex_from 0 1) = Some z -> imag z = 1) /\
   (on_circle (real (Complex_from 0 1), imag (Complex_from 0 1)) (susceptanceCircle 1) ->
    forall y, rflCoeffToAdmittance (Complex_from 0 1) = Some y -> imag y = 1)).
Proof.
  assert (H : 1 <> 0) by lra.
  split; [exact H | exact (reactance_susceptance_circles_constant 1 (Complex_from 0 1) H)].
Defined.

(** Every reflection coefficient off the real axis on [constQCircle q] at
    which [rflCoeffToImpedance] is defined has [rflCoeffToQ] equal to
    [|q|]. *)
Theorem constQCircle_constant_Q (q : R) (g : Complex)
  (Hq : q <> 0) (Hon : on_circle (real g, imag g) (constQCircle q))
  (Hgi : imag g <> 0) (Hdef : rflCoeffToImpedance g <> None) :
  rflCoeffToQ g = Some (Fin (Rabs q)).
Proof.
  unfold rflCoeffToQ.
  destruct (rflCoeffToImpedance g) as [z |] eqn:Hz; [| contradiction].
  apply rflCoeffToImpedance_some in Hz as [Hd ->].
  destruct g as [gr gi]; unfold rflCoeffToImpedance_d in Hd; simpl in Hd, Hon, Hgi.
  cbn [real imag].
  pose proof (positive_denominator _ Hd (sum_sq_nonneg _ _)) as Hd0.
  unfold on_circle, constQCircle in Hon; simpl in Hon.
  assert (Hqq : 0 <= 1 + 1 / (q * q)).
  { assert (0 < q * q) by (apply Rsqr_pos_lt; exact Hq).
    assert (0 < 1 / (q * q)) by (apply Rdiv_lt_0_compat; lra). lra. }
  unfold pow2 in Hon; rewrite sqrt_sqrt in Hon by exact Hqq.
  assert (E : q * (1 - gr * gr - gi * gi) + 2 * gi =
              - q * ((gr - 0) * (gr - 0) + (gi - 1 / q) * (gi - 1 / q) - (1 + 1 / (q * q))))
    by (field; exact Hq).
  rewrite Hon, Rminus_diag, Rmult_0_r in E.
  assert (Hr : 1 - gr * gr - gi * gi <> 0).
  { intro H0; rewrite H0, Rmult_0_r in E; lra. }
  assert (Hzr : (1 - gr * gr - gi * gi) / rflCoeffToImpedance_d (Complex_from gr gi) <> 0).
  { unfold Rdiv; apply Rmult_integral_contrapositive_currified;
      [exact Hr | apply Rinv_neq_0_compat; exact Hd0]. }
  rewrite js_div_fin by exact Hzr; unfold rflCoeffToImpedance_d; simpl.
  replace (2 * gi / ((1 - gr) * (1 - gr) + gi * gi) /
           ((1 - gr * gr - gi * gi) / ((1 - gr) * (1 - gr) + gi * gi)))
    with (- q).
  - rewrite Rabs_Ropp; reflexivity.
  - field_simplify; [| split; assumption].
    replace (- gi ^ 2 - gr ^ 2 + 1) with (1 - gr * gr - gi * gi) by ring.
    apply (Rmult_eq_reg_r (1 - gr * gr - gi * gi)); [| exact Hr].
    unfold Rdiv; rewrite Rmult_assoc, Rinv_l by exact Hr; lra.
Qed.

Lemma constQCircle_constant_Q_witness :
  (1 <> 0 /\ on_circle (real (Complex_from 1 2), imag (Complex_from 1 2)) (constQCircle 1) /\
   imag (Complex_from 1 2) <> 0 /\ rflCoeffToImpedance (Complex_from 1 2) <> None) /\
  rflCoeffToQ (Complex_from 1 2) = Some (Fin (Rabs 1)).
Proof.
  assert (H1 : 1 <> 0) by lra.
  assert (H2 : on_circle (real (Complex_from 1 2), imag (Complex_from 1 2)) (constQCircle 1)).
  { unfold on_circle, constQCircle, pow2; simpl.
    rewrite sqrt_sqrt by lra; field. }
  assert (H3 : imag (Complex_from 1 2) <> 0) by (simpl; lra).
  assert (H4 : rflCoeffToImpedance (Complex_from 1 2) <> None).
  { rewrite rflCoeffToImpedance_none; unfold rflCoeffToImpedance_d, epsilon; simpl.
    rewrite Rabs_pos_eq by lra; lra. }
  split; [split; [exact H1 | split; [exact H2 | split; [exact H3 | exact H4]]] |].
  exact (constQCircle_constant_Q 1 (Complex_from 1 2) H1 H2 H3 H4).
Defined.

(** For two circles whose centers differ, whose first radius is nonzero
    and which meet ([(r1 - r2)^2 <= D <= (r1 + r2)^2] for the squared
    distance [D] of the centers), both points returned by
    [circleCircleIntersection] lie on both circles, and so pass
    [isPointWithinCircle] for both. *)
Theorem circleCircleIntersection_meeting_circles (c1 c2 : Circle)
  (HD : 0 < pow2 (fst (p c2) - fst (p c1)) + pow2 (snd (p c2) - snd (p c1)))
  (Hr1 : r c1 <> 0)
  (Hlo : pow2 (r c1 - r c2) <= pow2 (fst (p c2) - fst (p c1)) + pow2 (snd (p c2) - snd (p c1)))
  (Hhi : pow2 (fst (p c2) - fst (p c1)) + pow2 (snd (p c2) - snd (p c1)) <= pow2 (r c1 + r c2)) :
  Forall (fun pt => on_circle pt c1 /\ on_circle pt c2 /\
                    isPointWithinCircle pt c1 = true /\ isPointWithinCircle pt c2 = true)
    (circleCircleIntersection c1 c2).
Proof.
  destruct c1 as [[x1 y1] r1], c2 as [[x2 y2] r2]; simpl in *.
  set (D := pow2 (x2 - x1) + pow2 (y2 - y1)) in *.
  assert (Hcos : let dl := sqrt D in
                 pow2 ((dl * dl + r1 * r1 - r2 * r2) / (2 * dl * r1)) <= 1).
  { cbv zeta.
    assert (Hdl2 : sqrt D * sqrt D = D) by (apply sqrt_sqrt; lra).
    assert (Hdl : 0 < sqrt D) by (apply sqrt_lt_R0; lra).
    rewrite Hdl2; unfold pow2 in *.
    assert (Hr12 : 0 < r1 * r1) by (apply Rsqr_pos_lt; exact Hr1).
    replace ((D + r1 * r1 - r2 * r2) / (2 * sqrt D * r1) *
             ((D + r1 * r1 - r2 * r2) / (2 * sqrt D * r1)))
      with ((D + r1 * r1 - r2 * r2) * (D + r1 * r1 - r2 * r2) /
            (4 * (sqrt D * sqrt D) * (r1 * r1)))
      by (field; split; lra).
    rewrite Hdl2.
    apply (Rmult_le_reg_r (4 * D * (r1 * r1))); [nra |].
    unfold Rdiv; rewrite Rmult_assoc, Rinv_l by nra.
    assert (Hprod : 0 <= (D - (r1 - r2) * (r1 - r2)) * ((r1 + r2) * (r1 + r2) - D))
      by (apply Rmult_le_pos; lra).
    nra. }
  pose proof (circleCircleIntersection_on_circles x1 y1 r1 x2 y2 r2 HD Hr1 Hcos) as Hon.
  revert Hon; apply Forall_impl; intros pt [H1 H2].
  unfold on_circle, isPointWithinCircle; simpl.
  rewrite H1, H2.
  repeat split; destruct (Rle_dec _ _) as [_ | Hn]; reflexivity || lra.
Qed.

Lemma circleCircleIntersection_meeting_circles_witness :
  let c1 := mkCircle (0, 0) 1 in
  let c2 := mkCircle (1, 0) 1 in
  (0 < pow2 (fst (p c2) - fst (p c1)) + pow2 (snd (p c2) - snd (p c1)) /\
   r c1 <> 0 /\
   pow2 (r c1 - r c2) <= pow2 (fst (p c2) - fst (p c1)) + pow2 (snd (p c2) - snd (p c1)) /\
   pow2 (fst (p c2) - fst (p c1)) + pow2 (snd (p c2) - snd (p c1)) <= pow2 (r c1 + r c2)) /\
  Forall (fun pt => on_circle pt c1 /\ on_circle pt c2 /\
                    isPointWithinCircle pt c1 = true /\ isPointWithinCircle pt c2 = true)
    (circleCircleIntersection c1 c2).
Proof.
  cbv zeta.
  assert (H1 : 0 < pow2 (fst (p (mkCircle (1, 0) 1)) - fst (p (mkCircle (0, 0) 1))) +
                   pow2 (snd (p (mkCircle (1, 0) 1)) - snd (p (mkCircle (0, 0) 1))))
    by (unfold pow2; simpl; lra).
  assert (H2 : r (mkCircle (0, 0) 1) <> 0) by (simpl; lra).
  assert (H3 : pow2 (r (mkCircle (0, 0) 1) - r (mkCircle (1, 0) 1)) <=
               pow2 (fst (p (mkCircle (1, 0) 1)) - fst (p (mkCircle (0, 0) 1))) +
               pow2 (snd (p (mkCircle (1, 0) 1)) - snd (p (mkCircle (0, 0) 1))))
    by (unfold pow2; simpl; lra).
  assert (H4 : pow2 (fst (p (mkCircle (1, 0) 1)) - fst (p (mkCircle (0, 0) 1))) +
               pow2 (snd (p (mkCircle (1, 0) 1)) - snd (p (mkCircle (0, 0) 1))) <=
               pow2 (r (mkCircle (0, 0) 1) + r (mkCircle (1, 0) 1)))
    by (unfold pow2; simpl; lra).
  split; [split; [exact H1 | split; [exact H2 | split; [exact H3 | exact H4]]] |].
  exact (circleCircleIntersection_meeting_circles _ _ H1 H2 H3 H4).
Defined.

(** ** Scalar metrics and their inverses *)

Lemma rflCoeffEOrI_abs (g : Complex) : rflCoeffEOrI g = Fin (Complex_abs g).
Proof.
  destruct (Complex_abs_facts g) as [H0 _].
  unfold rflCoeffEOrI, rflCoeffP, js_pow2; cbn [js_mul].
  rewrite js_sqrt_nonneg by nra.
  f_equal; apply sqrt_square; exact H0.
Qed.

Lemma swr_fin (g : Complex) :
  Complex_abs g < 1 ->
  rflCoeffToSwr g = Fin ((1 + Complex_abs g) / (1 - Complex_abs g)).
Proof.
  intro H.
  unfold rflCoeffToSwr; cbn [js_add js_sub js_neg].
  rewrite js_div_fin by lra; reflexivity.
Qed.

Lemma swrToRflCoeffEOrI_fin (s : R) :
  -1 < s -> swrToRflCoeffEOrI (Fin s) = Fin ((s - 1) / (s + 1)).
Proof.
  intro H; unfold swrToRflCoeffEOrI; cbn [js_add js_sub js_neg].
  rewrite js_div_fin by lra; reflexivity.
Qed.

Lemma swr_ge_1 (a : R) : 0 <= a < 1 -> 1 <= (1 + a) / (1 - a).
Proof.
  intro H; apply (Rmult_le_reg_r (1 - a)); [lra |].
  unfold Rdiv; rewrite Rmult_assoc, Rinv_l by lra; lra.
Qed.

Lemma swr_inverse (a : R) : a < 1 -> ((1 + a) / (1 - a) - 1) / ((1 + a) / (1 - a) + 1) = a.
Proof. intro H; field; lra. Qed.

Lemma ln_le_mono (x y : R) : 0 < x -> x <= y -> ln x <= ln y.
Proof.
  intros Hx Hxy; destruct Hxy as [Hlt | Heq].
  - left; apply ln_increasing; assumption.
  - right; rewrite Heq; reflexivity.
Qed.

Lemma log10_nonneg (x : R) : 1 <= x -> 0 <= log10 x.
Proof.
  intro H; pose proof ln_10_pos; unfold log10.
  unfold Rdiv; apply Rmult_le_pos; [| left; apply Rinv_0_lt_compat; exact H0].
  rewrite <- ln_1; apply ln_le_mono; lra.
Qed.

Lemma log10_nonpos (x : R) : 0 < x <= 1 -> log10 x <= 0.
Proof.
  intro H; pose proof ln_10_pos; unfold log10.
  assert (ln x <= 0) by (rewrite <- ln_1; apply ln_le_mono; lra).
  pose proof (Rinv_0_lt_compat _ H0) as Hi.
  unfold Rdiv; nra.
Qed.

(** Inside the unit circle [rflCoeffToSwr] returns a finite SWR of at least
    [1] that [swrToRflCoeffEOrI] maps back to [|gamma|]; on the unit circle
    it returns [+Infinity] (the division is not guarded). *)
Theorem rflCoeffToSwr_range_inverse (g : Complex) :
  (Complex_abs g < 1 ->
   exists s, rflCoeffToSwr g = Fin s /\ 1 <= s /\
             swrToRflCoeffEOrI (Fin s) = Fin (Complex_abs g)) /\
  (Complex_abs g = 1 -> rflCoeffToSwr g = PInf).
Proof.
  destruct (Complex_abs_facts g) as [H0 _].
  split.
  - intro H; exists ((1 + Complex_abs g) / (1 - Complex_abs g)).
    split; [apply swr_fin; exact H |].
    pose proof (swr_ge_1 (Complex_abs g) (conj H0 H)) as Hs.
    split; [exact Hs |].
    rewrite swrToRflCoeffEOrI_fin by lra; rewrite swr_inverse by exact H; reflexivity.
  - intro H; unfold rflCoeffToSwr; rewrite H; simpl.
    destruct (Req_EM_T (1 + - (1)) 0) as [_ | Hn]; [| lra].
    unfold inf_of_sign; destruct (Rlt_dec 0 (1 + 1)) as [_ | Hn]; [reflexivity | lra].
Qed.

(** Inside the unit circle [rflCoeffToDBS] is a finite non-negative value
    that [dBSToAbsRflCoeff] maps back to [|gamma|]. *)
Theorem rflCoeffToDBS_inverse (g : Complex) (H : Complex_abs g < 1) :
  exists x, rflCoeffToDBS g = Fin x /\ 0 <= x /\
            dBSToAbsRflCoeff (Fin x) = Fin (Complex_abs g).
Proof.
  destruct (Complex_abs_facts g) as [H0 _].
  set (s := (1 + Complex_abs g) / (1 - Complex_abs g)).
  pose proof (swr_ge_1 (Complex_abs g) (conj H0 H)) as Hs; fold s in Hs.
  exists (20 * log10 s).
  unfold rflCoeffToDBS, swrTodBS; rewrite swr_fin by exact H; fold s.
  rewrite js_log10_pos by lra; cbn [js_mul].
  split; [reflexivity |].
  split; [pose proof (log10_nonneg s Hs); lra |].
  unfold dBSToAbsRflCoeff, dBSToSwr; cbv zeta.
  rewrite js_div_fin by lra; cbn [js_pow10].
  replace (20 * log10 s / 20) with (log10 s) by field.
  rewrite Rpower10_log10 by lra.
  rewrite swrToRflCoeffEOrI_fin by lra.
  unfold s; rewrite swr_inverse by exact H; reflexivity.
Qed.

Lemma rflCoeffToDBS_inverse_witness :
  Complex_abs (Complex_from 0 0) < 1 /\
  exists x, rflCoeffToDBS (Complex_from 0 0) = Fin x /\ 0 <= x /\
            dBSToAbsRflCoeff (Fin x) = Fin (Complex_abs (Complex_from 0 0)).
Proof.
  assert (H : Complex_abs (Complex_from 0 0) < 1) by (rewrite Complex_abs_real; lra).
  split; [exact H | exact (rflCoeffToDBS_inverse _ H)].
Defined.

(** For [gamma <> 0], [returnLossToRflCoeffEOrI] maps the return loss back
    to [|gamma|], and in the closed unit disk the return loss is
    non-negative. *)
Theorem rflCoeffToReturnLoss_inverse (g : Complex) (H : 0 < Complex_abs g) :
  exists rl, rflCoeffToReturnLoss g = Fin rl /\
             (Complex_abs g <= 1 -> 0 <= rl) /\
             returnLossToRflCoeffEOrI (Fin rl) = Fin (Complex_abs g).
Proof.
  exists (-20 * log10 (Complex_abs g)).
  unfold rflCoeffToReturnLoss; rewrite rflCoeffEOrI_abs.
  rewrite js_log10_pos by exact H; cbn [js_mul].
  split; [reflexivity |].
  split; [intro H1; pose proof (log10_nonpos _ (conj H H1)); lra |].
  unfold returnLossToRflCoeffEOrI, js_neg.
  rewrite js_div_fin by lra; cbn [js_pow10].
  replace (- (-20 * log10 (Complex_abs g)) / 20) with (log10 (Complex_abs g)) by field.
  rewrite Rpower10_log10 by exact H; reflexivity.
Qed.

Lemma rflCoeffToReturnLoss_inverse_witness :
  0 < Complex_abs (Complex_from (1 / 2) 0) /\
  exists rl, rflCoeffToReturnLoss (Complex_from (1 / 2) 0) = Fin rl /\
             (Complex_abs (Complex_from (1 / 2) 0) <= 1 -> 0 <= rl) /\
             returnLossToRflCoeffEOrI (Fin rl) = Fin (Complex_abs (Complex_from (1 / 2) 0)).
Proof.
  assert (H : 0 < Complex_abs (Complex_from (1 / 2) 0)) by (rewrite Complex_abs_real; lra).
  split; [exact H | exact (rflCoeffToReturnLoss_inverse _ H)].
Defined.

(** Inside the unit circle the mismatch loss is finite and non-negative, and
    [mismatchLossToRflCoeffEOrI] maps it back to [|gamma|]. *)
Theorem rflCoeffToMismatchLoss_inverse (g : Complex) (H : Complex_abs g < 1) :
  exists ml, rflCoeffToMismatchLoss g = Fin ml /\ 0 <= ml /\
             mismatchLossToRflCoeffEOrI (Fin ml) = Fin (Complex_abs g).
Proof.
  destruct (Complex_abs_facts g) as [H0 _].
  set (a := Complex_abs g) in *.
  assert (Hp : 0 < 1 + - (a * a)) by nra.
  exists (-10 * log10 (1 + - (a * a))).
  unfold rflCoeffToMismatchLoss; cbv zeta; rewrite rflCoeffEOrI_abs; fold a.
  unfold js_pow2; cbn [js_mul js_sub js_add js_neg].
  rewrite js_log10_pos by exact Hp; cbn [js_mul].
  split; [reflexivity |].
  assert (Hl : log10 (1 + - (a * a)) <= 0) by (apply log10_nonpos; split; nra).
  split; [lra |].
  unfold mismatchLossToRflCoeffEOrI; cbn [js_neg].
  rewrite js_div_fin by lra; cbn [js_pow10].
  replace (- (-10 * log10 (1 + - (a * a))) / 10) with (log10 (1 + - (a * a))) by field.
  rewrite Rpower10_log10 by exact Hp; cbn [js_sub js_add js_neg].
  replace (1 + - (1 + - (a * a))) with (a * a) by ring.
  rewrite js_sqrt_nonneg by nra.
  f_equal; apply sqrt_square; exact H0.
Qed.

Lemma rflCoeffToMismatchLoss_inverse_witness :
  Complex_abs (Complex_from (1 / 2) 0) < 1 /\
  exists ml, rflCoeffToMismatchLoss (Complex_from (1 / 2) 0) = Fin ml /\ 0 <= ml /\
             mismatchLossToRflCoeffEOrI (Fin ml) = Fin (Complex_abs (Complex_from (1 / 2) 0)).
Proof.
  assert (H : Complex_abs (Complex_from (1 / 2) 0) < 1) by (rewrite Complex_abs_real; lra).
  split; [exact H | exact (rflCoeffToMismatchLoss_inverse _ H)].
Defined.

(** For every reflection coefficient the reflected and transmitted power
    fractions sum to [1], [transmCoeffPToRflCoeffEOrI] maps the transmitted
    fraction back to [|gamma|], and [rflCoeffPToEOrI] maps the reflected
    fraction to [|gamma|]. *)
Theorem power_fractions_inverse (g : Complex) :
  exists t, rflCoeffToTransmCoeffP g = Fin t /\
            rflCoeffP g = Fin (1 - t) /\
            transmCoeffPToRflCoeffEOrI (Fin t) = Fin (Complex_abs g) /\
            rflCoeffPToEOrI (rflCoeffP g) = Fin (Complex_abs g).
Proof.
  destruct (Complex_abs_facts g) as [H0 _].
  exists (1 + - (Complex_abs g * Complex_abs g)).
  assert (Hsq : js_sqrt (Fin (Complex_abs g * Complex_abs g)) = Fin (Complex_abs g)).
  { rewrite js_sqrt_nonneg by nra; f_equal; apply sqrt_square; exact H0. }
  unfold rflCoeffToTransmCoeffP; rewrite rflCoeffEOrI_abs.
  unfold js_pow2; cbn [js_mul js_sub js_add js_neg].
  split; [reflexivity |].
  split; [unfold rflCoeffP, js_pow2; cbn [js_mul]; f_equal; ring |].
  split.
  - unfold transmCoeffPToRflCoeffEOrI; cbn [js_sub js_add js_neg].
    replace (1 + - (1 + - (Complex_abs g * Complex_abs g)))
      with (Complex_abs g * Complex_abs g) by ring.
    exact Hsq.
  - unfold rflCoeffPToEOrI, rflCoeffP, js_pow2; cbn [js_mul]; exact Hsq.
Qed.

(** Inside the unit circle [swPeakConstPToRflCoeffEOrI] inverts
    [rflCoeffToSwPeakConstP], whose value is at least [1]. *)
Theorem rflCoeffToSwPeakConstP_inverse (g : Complex) (H : Complex_abs g < 1) :
  exists sp, rflCoeffToSwPeakConstP g = Fin sp /\ 1 <= sp /\
             swPeakConstPToRflCoeffEOrI (Fin sp) = Fin (Complex_abs g).
Proof.
  destruct (Complex_abs_facts g) as [H0 _].
  set (s := (1 + Complex_abs g) / (1 - Complex_abs g)).
  pose proof (swr_ge_1 (Complex_abs g) (conj H0 H)) as Hs; fold s in Hs.
  exists (sqrt s).
  unfold rflCoeffToSwPeakConstP; rewrite swr_fin by exact H; fold s.
  rewrite js_sqrt_nonneg by lra.
  split; [reflexivity |].
  split; [rewrite <- sqrt_1; apply sqrt_le_1_alt; exact Hs |].
  unfold swPeakConstPToRflCoeffEOrI, js_pow2; cbn [js_mul].
  rewrite sqrt_sqrt by lra.
  rewrite swrToRflCoeffEOrI_fin by lra.
  unfold s; rewrite swr_inverse by exact H; reflexivity.
Qed.

Lemma rflCoeffToSwPeakConstP_inverse_witness :
  Complex_abs (Complex_from (1 / 2) 0) < 1 /\
  exists sp, rflCoeffToSwPeakConstP (Complex_from (1 / 2) 0) = Fin sp /\ 1 <= sp /\
             swPeakConstPToRflCoeffEOrI (Fin sp) = Fin (Complex_abs (Complex_from (1 / 2) 0)).
Proof.
  assert (H : Complex_abs (Complex_from (1 / 2) 0) < 1) by (rewrite Complex_abs_real; lra).
  split; [exact H | exact (rflCoeffToSwPeakConstP_inverse _ H)].
Defined.

(** Inside the unit circle the standing-wave loss coefficient is finite and
    at least [1], and [swLossCoeffToRflCoeffEOrI] maps it back to
    [|gamma|]; on the unit circle it is [+Infinity]. *)
Theorem rflCoeffToSwLossCoeff_inverse (g : Complex) :
  (Complex_abs g < 1 ->
   exists w, rflCoeffToSwLossCoeff g = Fin w /\ 1 <= w /\
             swLossCoeffToRflCoeffEOrI (Fin w) = Fin (Complex_abs g)) /\
  (Complex_abs g = 1 -> rflCoeffToSwLossCoeff g = PInf).
Proof.
  destruct (Complex_abs_facts g) as [H0 _].
  unfold rflCoeffToSwLossCoeff; cbv zeta; rewrite rflCoeffEOrI_abs.
  unfold js_pow2; cbn [js_mul js_sub js_add js_neg].
  set (a := Complex_abs g) in *.
  split.
  - intro H.
    assert (Hp : 1 + - (a * a) <> 0) by nra.
    rewrite js_div_fin by exact Hp.
    set (w := (1 + a * a) / (1 + - (a * a))).
    assert (Hw : 1 <= w).
    { unfold w; apply (Rmult_le_reg_r (1 + - (a * a))); [nra |].
      unfold Rdiv; rewrite Rmult_assoc, Rinv_l by exact Hp; nra. }
    exists w; split; [reflexivity |]; split; [exact Hw |].
    unfold swLossCoeffToRflCoeffEOrI; cbn [js_sub js_add js_neg].
    rewrite js_div_fin by lra.
    replace ((w + - (1)) / (w + 1)) with (a * a) by (unfold w; field; nra).
    rewrite js_sqrt_nonneg by nra; f_equal; apply sqrt_square; exact H0.
  - intro H; rewrite H; simpl.
    destruct (Req_EM_T (1 + - (1 * 1)) 0) as [_ | Hn]; [| lra].
    unfold inf_of_sign; destruct (Rlt_dec 0 (1 + 1 * 1)) as [_ | Hn]; [reflexivity | lra].
Qed.

(** ** Lumped elements *)

(** [reactanceToCapacitance] refuses non-negative reactances; for a negative
    reactance at a positive frequency it returns a positive capacitance that
    [capacitanceToReactance] turns back into the reactance, and every
    positive capacitance has a negative reactance that it maps back to the
    capacitance. *)
Theorem reactanceToCapacitance_inverse (x f : R) (Hf : 0 < f) :
  (reactanceToCapacitance x f = None <-> 0 <= x) /\
  (x < 0 -> exists C, reactanceToCapacitance x f = Some (Fin C) /\ 0 < C /\
                      capacitanceToReactance C f = Complex_from 0 x) /\
  (forall C, 0 < C ->
     imag (capacitanceToReactance C f) < 0 /\
     reactanceToCapacitance (imag (capacitanceToReactance C f)) f = Some (Fin C)).
Proof.
  pose proof PI_RGT_0 as Hpi.
  assert (Hw : 0 < 2 * PI * f) by nra.
  split; [| split].
  - unfold reactanceToCapacitance; destruct (Rle_dec 0 x) as [Hx | Hx].
    + split; intros _; [exact Hx | reflexivity].
    + split; intro H; [discriminate | contradiction].
  - intro Hx; unfold reactanceToCapacitance.
    destruct (Rle_dec 0 x) as [Hx' | _]; [lra |].
    assert (Hk : 2 * PI * f * x < 0) by nra.
    rewrite js_div_fin by lra.
    exists (-1 / (2 * PI * f * x)).
    split; [reflexivity |].
    split.
    + pose proof (Rinv_lt_0_compat _ Hk); unfold Rdiv; nra.
    + unfold capacitanceToReactance; f_equal; field; repeat split; lra.
  - intros C HC; unfold capacitanceToReactance; cbn [imag].
    assert (Hk : 0 < 2 * PI * f * C) by nra.
    assert (Hneg : -1 / (2 * PI * f * C) < 0).
    { pose proof (Rinv_0_lt_compat _ Hk); unfold Rdiv; nra. }
    split; [exact Hneg |].
    unfold reactanceToCapacitance.
    destruct (Rle_dec 0 (-1 / (2 * PI * f * C))) as [Hx' | _]; [lra |].
    rewrite js_div_fin.
    + do 2 f_equal; field; repeat split; lra.
    + assert (Hk' : 2 * PI * f * (-1 / (2 * PI * f * C)) = -1 / C) by (field; repeat split; lra).
      rewrite Hk'; pose proof (Rinv_0_lt_compat _ HC); unfold Rdiv; nra.
Qed.

Lemma reactanceToCapacitance_inverse_witness :
  0 < 1 /\ reactanceToCapacitance (-1) 1 <> None.
Proof.
  assert (Hf : 0 < 1) by lra.
  split; [exact Hf |].
  destruct (reactanceToCapacitance_inverse (-1) 1 Hf) as [[Hnone _] _].
  intro H; apply Hnone in H; lra.
Defined.

(** [reactanceToInductance] refuses non-positive reactances; for a positive
    reactance at a positive frequency it returns a positive inductance that
    [inductanceToReactance] turns back into the reactance, and every positive
    inductance has a positive reactance that it maps back to the
    inductance. *)
Theorem reactanceToInductance_inverse (x f : R) (Hf : 0 < f) :
  (reactanceToInductance x f = None <-> x <= 0) /\
  (0 < x -> exists L, reactanceToInductance x f = Some (Fin L) /\ 0 < L /\
                      inductanceToReactance L f = Complex_from 0 x) /\
  (forall L, 0 < L ->
     0 < imag (inductanceToReactance L f) /\
     reactanceToInductance (imag (inductanceToReactance L f)) f = Some (Fin L)).
Proof.
  pose proof PI_RGT_0 as Hpi.
  assert (Hw : 0 < 2 * PI * f) by nra.
  split; [| split].
  - unfold reactanceToInductance; destruct (Rle_dec x 0) as [Hx | Hx].
    + split; intros _; [exact Hx | reflexivity].
    + split; intro H; [discriminate | contradiction].
  - intro Hx; unfold reactanceToInductance.
    destruct (Rle_dec x 0) as [Hx' | _]; [lra |].
    rewrite js_div_fin by lra.
    exists (x / (2 * PI * f)).
    split; [reflexivity |].
    split.
    + pose proof (Rinv_0_lt_compat _ Hw); unfold Rdiv; nra.
    + unfold inductanceToReactance; f_equal; field; repeat split; lra.
  - intros L HL; unfold inductanceToReactance; cbn [imag].
    assert (Hk : 0 < 2 * PI * f * L) by nra.
    split; [exact Hk |].
    unfold reactanceToInductance.
    destruct (Rle_dec (2 * PI * f * L) 0) as [Hx' | _]; [lra |].
    rewrite js_div_fin by lra.
    do 2 f_equal; field; repeat split; lra.
Qed.

Lemma reactanceToInductance_inverse_witness :
  0 < 1 /\ reactanceToInductance 1 1 <> None.
Proof.
  assert (Hf : 0 < 1) by lra.
  split; [exact Hf |].
  destruct (reactanceToInductance_inverse 1 1 Hf) as [[Hnone _] _].
  intro H; apply Hnone in H; lra.
Defined.

(** ** Angles and normalisation *)

(** [rad2deg] and [deg2rad] are inverse on finite values. *)
Theorem rad2deg_deg2rad_inverse (a : R) :
  rad2deg (deg2rad (Fin a)) = Fin a /\ deg2rad (rad2deg (Fin a)) = Fin a.
Proof.
  pose proof PI_neq0 as Hpi.
  unfold rad2deg, deg2rad; split.
  - cbn [js_mul]; rewrite js_div_fin by lra; cbn [js_mul].
    rewrite js_div_fin by exact Hpi; f_equal; field; exact Hpi.
  - cbn [js_mul]; rewrite js_div_fin by exact Hpi; cbn [js_mul].
    rewrite js_div_fin by lra; f_equal; field; exact Hpi.
Qed.

Lemma js_div_fin_zero (a : R) : js_div (Fin a) (Fin 0) = inf_of_sign a PInf NInf.
Proof. simpl; destruct (Req_EM_T 0 0) as [_ | Hn]; [reflexivity | lra]. Qed.

Lemma rad_to_deg_fin (a : R) : rad2deg (Fin a) = Fin (a * 180 / PI).
Proof. unfold rad2deg; cbn [js_mul]; rewrite js_div_fin by exact PI_neq0; reflexivity. Qed.

(** [tangentToCircleAngle] is [NaN] at the centre of the circle; at any
    other point it is a finite angle in [[-90, 90]] degrees, strictly
    inside that range off the horizontal line through the centre (on it the
    division by zero gives [+-Infinity] and [Math.atan] gives [+-90]). *)
Theorem tangentToCircleAngle_range (c : Circle) (pt : Point) :
  (pt = p c -> tangentToCircleAngle c pt = NaN) /\
  (pt <> p c -> exists d, tangentToCircleAngle c pt = Fin d /\ -90 <= d <= 90 /\
                          (snd pt <> snd (p c) -> -90 < d < 90)).
Proof.
  pose proof PI_RGT_0 as Hpi.
  destruct c as [[cx cy] rc], pt as [x y].
  unfold tangentToCircleAngle; cbn [fst snd p].
  split.
  - intro He; injection He as Hx Hy; subst x y.
    replace (cx - cx) with 0 by ring; replace (cy - cy) with 0 by ring.
    rewrite js_div_fin_zero; unfold inf_of_sign.
    destruct (Rlt_dec 0 0) as [Hl | _]; [lra |].
    destruct (Rlt_dec 0 0) as [Hl | _]; [lra | reflexivity].
  - intro Hne.
    destruct (Req_EM_T (y - cy) 0) as [Hy | Hy].
    + rewrite Hy, js_div_fin_zero; unfold inf_of_sign.
      destruct (Rlt_dec 0 (cx - x)) as [Hp | Hp].
      * cbn [js_atan]; rewrite rad_to_deg_fin.
        exists 90; split; [f_equal; field; lra |].
        split; [lra | intro Hs; lra].
      * destruct (Rlt_dec (cx - x) 0) as [Hn | Hn].
        -- cbn [js_atan]; rewrite rad_to_deg_fin.
           exists (-90); split; [f_equal; field; lra |].
           split; [lra | intro Hs; lra].
        -- exfalso; apply Hne; f_equal; lra.
    + rewrite js_div_fin by exact Hy; cbn [js_atan]; rewrite rad_to_deg_fin.
      set (t := atan ((cx - x) / (y - cy))).
      pose proof (atan_bound ((cx - x) / (y - cy))) as [Hlo Hhi]; fold t in Hlo, Hhi.
      exists (t * 180 / PI); split; [reflexivity |].
      assert (Ek : t * 180 / PI = t * (180 / PI)) by (field; lra).
      assert (Hk : 0 < 180 / PI) by (pose proof (Rinv_0_lt_compat _ Hpi); unfold Rdiv; nra).
      assert (E1 : 90 = PI / 2 * (180 / PI)) by (field; lra).
      rewrite Ek.
      assert (-90 < t * (180 / PI) < 90) by (split; nra).
      split; [lra | intros _; exact H].
Qed.

(** [denormalize] undoes [normalize] and conversely, for a nonzero
    reference impedance. *)
Theorem normalize_denormalize_inverse (Z0 : R) (HZ0 : Z0 <> 0) (c : Complex) :
  denormalize Z0 (normalize Z0 c) = c /\ normalize Z0 (denormalize Z0 c) = c.
Proof.
  destruct c as [cr ci]; unfold normalize, denormalize, Complex_div_real, Complex_mul_real.
  cbn [real imag]; split; f_equal; field; exact HZ0.
Qed.

Lemma normalize_denormalize_inverse_witness :
  50 <> 0 /\
  denormalize 50 (normalize 50 (Complex_from 1 2)) = Complex_from 1 2 /\
  normalize 50 (denormalize 50 (Complex_from 1 2)) = Complex_from 1 2.
Proof.
  assert (H : (50 : R) <> 0) by lra.
  split; [exact H | exact (normalize_denormalize_inverse 50 H (Complex_from 1 2))].
Defined.

(** ** Adding series and shunt elements *)


(** The same for [addAdmittance], with the added admittance scaled by [Z0]. *)
Theorem addAdmittance_adds (Z0 : R) (rc adm : Complex) :
  (rflCoeffToAdmittance rc = None -> addAdmittance Z0 rc adm = None) /\
  (forall y, rflCoeffToAdmittance rc = Some y ->
     epsilon <= admittanceToRflCoeff_d (Complex_add y (denormalize Z0 adm)) ->
     admittanceToRflCoeff_d (Complex_add y (denormalize Z0 adm)) <= 4 / epsilon ->
     exists g, addAdmittance Z0 rc adm = Some g /\
               rflCoeffToAdmittance g = Some (Complex_add y (denormalize Z0 adm))).
Proof.
  unfold addAdmittance; split.
  - intro H; rewrite H; reflexivity.
  - intros y Hy H1 H2; rewrite Hy.
    exact (admittanceToRflCoeff_inverse_in_range _ H1 H2).
Qed.

(** ** The chart readouts *)

(** Where both readouts of [Smith] are defined, the impedance in ohms times
    the admittance in millisiemens is [1000]: the two readouts are
    reciprocal. *)
Theorem calcImpedance_calcAdmittance_reciprocal (Z0 : R) (HZ0 : Z0 <> 0)
  (rc zp yp : Point)
  (Hz : Smith.calcImpedance Z0 rc = Some zp) (Hy : Smith.calcAdmittance Z0 rc = Some yp) :
  fst zp * fst yp - snd zp * snd yp = 1000 /\ fst zp * snd yp + snd zp * fst yp = 0.
Proof.
  destruct rc as [gr gi].
  unfold Smith.calcImpedance, Smith.calcAdmittance,
    reflectionCoefficientToImpedance, reflectionCoefficientToAdmittance in *.
  cbn [fst snd] in Hz, Hy.
  destruct (rflCoeffToImpedance (Complex_from gr gi)) as [z |] eqn:Ez; [| discriminate].
  destruct (rflCoeffToAdmittance (Complex_from gr gi)) as [y |] eqn:Ey; [| discriminate].
  cbn [option_map] in Hz, Hy.
  injection Hz as <-; injection Hy as <-; cbn [fst snd].
  apply rflCoeffToImpedance_some in Ez as [Hdz ->].
  apply rflCoeffToAdmittance_some in Ey as [Hdy ->].
  pose proof epsilon_pos as He.
  unfold rflCoeffToImpedance_d, rflCoeffToAdmittance_d in *; cbn [real imag] in *.
  assert (D1 : (1 - gr) * (1 - gr) + gi * gi <> 0).
  { intro E; rewrite E, Rabs_R0 in Hdz; lra. }
  assert (D2 : (gr + 1) * (gr + 1) + gi * gi <> 0).
  { intro E; rewrite E, Rabs_R0 in Hdy; lra. }
  split; field; repeat split; assumption.
Qed.

Lemma calcImpedance_calcAdmittance_reciprocal_witness :
  (50 : R) <> 0 /\
  Smith.calcImpedance 50 (0, 0) = Some (1 * 50, 0 * 50) /\
  Smith.calcAdmittance 50 (0, 0) = Some (1 * (1 / 50 * 1000), 0 * (1 / 50 * 1000)) /\
  (1 * 50 * (1 * (1 / 50 * 1000)) - 0 * 50 * (0 * (1 / 50 * 1000)) = 1000 /\
   1 * 50 * (0 * (1 / 50 * 1000)) + 0 * 50 * (1 * (1 / 50 * 1000)) = 0).
Proof.
  assert (H0 : (50 : R) <> 0) by lra.
  assert (Hz : Smith.calcImpedance 50 (0, 0) = Some (1 * 50, 0 * 50)).
  { unfold Smith.calcImpedance, reflectionCoefficientToImpedance; cbn [fst snd].
    rewrite rflCoeffToImpedance_0; reflexivity. }
  assert (Hy : Smith.calcAdmittance 50 (0, 0) =
               Some (1 * (1 / 50 * 1000), 0 * (1 / 50 * 1000))).
  { unfold Smith.calcAdmittance, reflectionCoefficientToAdmittance; cbn [fst snd].
    rewrite rflCoeffToAdmittance_0; reflexivity. }
  split; [exact H0 | split; [exact Hz | split; [exact Hy |]]].
  exact (calcImpedance_calcAdmittance_reciprocal 50 H0 (0, 0) _ _ Hz Hy).
Defined.
